(** * Room detector: post-processing of the Mask R-CNN output

    A shallow embedding of [backend/main.py]: the IoU of two pixel boxes
    ([compute_iou]), the greedy overlap suppression
    ([remove_overlapping_rooms]) and the [/detect] handler
    ([detect_rooms]) with its coordinate normalisation and the
    re-numbering of the room identifiers.

    Numbers.  A Python [float] is modelled by the rational number it
    denotes, so equality of numbers is [Qeq] ([==]); infinities and NaN
    are outside the model.  The arithmetic of [compute_iou] and all
    comparisons are those of [Q].  The arithmetic of the normalisation and
    Python's [round], whose results go to the client digit for digit, are
    rounded to binary64 as the program rounds them, by [fl].  Records and
    lists are compared with Leibniz equality, which is what the source does
    when it passes the same dictionaries along.

    External calls.  The neural network, the image codecs, the contour
    tracing of OpenCV and the random UUIDs are parameters of the section
    [Service]. *)

From Stdlib Require Import QArith Qround Qabs Qminmax Qpower Lqa Lia.
From Stdlib Require Import Strings.Byte DecimalString Sorting.Sorted.
From Stdlib Require DecimalNat.
From stdpp Require Import list strings sorting.

Local Open Scope Q_scope.

(** ** Numbers *)

(** [a < b] on floats. *)
Definition Qltb (a b : Q) : bool :=
  (Qnum a * QDen b <? Qnum b * QDen a)%Z.

(** Python's [max(a, b)]: the first argument unless the second is
    strictly greater. *)
Definition pymax (a b : Q) : Q := if Qltb a b then b else a.

(** Python's [min(a, b)]: the first argument unless the second is
    strictly smaller. *)
Definition pymin (a b : Q) : Q := if Qltb b a then b else a.

(** Nearest integer, ties to the even one. *)
Definition round_half_even (x : Q) : Z :=
  let f := Qfloor x in
  match Qcompare (x - inject_Z f) (1 # 2) with
  | Lt => f
  | Gt => (f + 1)%Z
  | Eq => if Z.even f then f else (f + 1)%Z
  end.

(** The exponent of the binade of [q > 0]: the [a] with
    [2 ^ a <= q < 2 ^ (a + 1)]. *)
Definition ilog2 (q : Q) : Z :=
  let a := (Z.log2 (Qnum q) - Z.log2 (Z.pos (Qden q)))%Z in
  if Qle_bool (2 ^ a) q then a else (a - 1)%Z.

(** Rounding to binary64, to nearest with ties to even: the result of one
    float operation whose exact value is [q].  The significand has 53 bits;
    the exponent is not bounded, so the model is that of the program as long
    as the results stay in the normal range of binary64 (no overflow, no
    subnormal), which they do for float32 boxes and scores and image
    dimensions. *)
Definition fl (q : Q) : Q :=
  if Qeq_bool q 0 then 0
  else
    let e := (ilog2 (Qabs q) - 52)%Z in
    inject_Z (round_half_even (q / 2 ^ e)) * 2 ^ e.

(** Python's [round(x, ndigits)] of a float: the decimal with [ndigits]
    digits nearest to the exact value of [x], ties to even, converted back
    to the nearest float. *)
Definition pyround (x : Q) (ndigits : nat) : Q :=
  let scale := inject_Z (10 ^ Z.of_nat ndigits) in
  fl (inject_Z (round_half_even (x * scale)) / scale).

(** ** Data model *)

Record BoundingBox : Type := mkBoundingBox {
  x1 : Q;
  y1 : Q;
  x2 : Q;
  y2 : Q
}.

Record Room : Type := mkRoom {
  id : string;
  bounding_box : list Q;
  bbox_pixels : BoundingBox;
  vertices : list (list Z);
  confidence : Q;
  name_hint : option string
}.

Record DetectionResult : Type := mkDetectionResult {
  image_size : positive * positive;   (* width, height *)
  total_rooms : nat;
  rooms : list Room
}.

Record HTTPException : Type := mkHTTPException {
  status_code : Z;
  detail : string
}.

(** ** [compute_iou] *)

Definition compute_iou (box1 box2 : BoundingBox) : Q :=
  let x1' := pymax (x1 box1) (x1 box2) in
  let y1' := pymax (y1 box1) (y1 box2) in
  let x2' := pymin (x2 box1) (x2 box2) in
  let y2' := pymin (y2 box1) (y2 box2) in
  if Qle_bool x2' x1' || Qle_bool y2' y1' then 0
  else
    let intersection := (x2' - x1') * (y2' - y1') in
    let area1 := (x2 box1 - x1 box1) * (y2 box1 - y1 box1) in
    let area2 := (x2 box2 - x1 box2) * (y2 box2 - y1 box2) in
    let union := area1 + area2 - intersection in
    if Qltb 0 union then intersection / union else 0.

(** ** [remove_overlapping_rooms] *)

(** [sorted(rooms, key=lambda x: x['confidence'], reverse=True)]: the
    stable sort by descending key, as a stable insertion sort.  A room is
    moved past the rooms of strictly greater confidence only. *)
Fixpoint insert_desc (r : Room) (l : list Room) : list Room :=
  match l with
  | [] => [r]
  | y :: l' =>
      if Qltb (confidence r) (confidence y)
      then y :: insert_desc r l'
      else r :: y :: l'
  end.

Definition sorted_desc (l : list Room) : list Room :=
  foldr insert_desc [] l.

(** The inner loop over [kept_rooms], with its [break]. *)
Fixpoint overlaps_kept (iou_threshold : Q) (room : Room)
    (kept_rooms : list Room) : bool :=
  match kept_rooms with
  | [] => false
  | kept :: rest =>
      let iou := compute_iou (bbox_pixels room) (bbox_pixels kept) in
      if Qltb iou_threshold iou then true
      else overlaps_kept iou_threshold room rest
  end.

(** One turn of the outer loop. *)
Definition keep_step (iou_threshold : Q) (kept_rooms : list Room)
    (room : Room) : list Room :=
  if overlaps_kept iou_threshold room kept_rooms then kept_rooms
  else kept_rooms ++ [room].

Definition remove_overlapping_rooms (rooms : list Room)
    (iou_threshold : Q) : list Room :=
  match rooms with
  | [] => rooms
  | _ => fold_left (keep_step iou_threshold) (sorted_desc rooms) []
  end.

(** ** [detect_rooms] *)

(** [f"{n:03d}"]: the decimal digits, padded with zeros on the left to
    a width of at least three. *)
Definition fmt_03d (n : nat) : string :=
  let s := NilZero.string_of_uint (Nat.to_uint n) in
  String.concat "" (replicate (3 - String.length s) "0"%string) +:+ s.

(** One raw detection of the network: box, score and mask. *)
Record Detection (mask : Type) : Type := mkDetection {
  box : Q * Q * Q * Q;
  score : Q;
  det_mask : mask
}.
Arguments mkDetection {mask}.
Arguments box {mask}.
Arguments score {mask}.
Arguments det_mask {mask}.

Definition box0 (b : Q * Q * Q * Q) : Q := b.1.1.1.
Definition box1 (b : Q * Q * Q * Q) : Q := b.1.1.2.
Definition box2 (b : Q * Q * Q * Q) : Q := b.1.2.
Definition box3 (b : Q * Q * Q * Q) : Q := b.2.

(** [float(p) / dim * 1000]: a float division and a float product. *)
Definition scaled (p : Q) (dim : positive) : Q :=
  fl (fl (p / inject_Z (Z.pos dim)) * 1000).

(** [round(float(p) / dim * 1000, 1)]. *)
Definition normalize (p : Q) (dim : positive) : Q :=
  pyround (scaled p dim) 1.

Section Service.
(** The loaded network, a decoded image and a mask tensor. *)
Variables model image mask : Type.
(** [cv2.imdecode] on a buffer that is not empty: [None] when no codec
    decodes the bytes.  On an empty buffer [cv2.imdecode] raises
    ([CV_Assert(!buf.empty())]); [detect_rooms] has that case. *)
Variable imdecode : list byte -> option image.
(** [img.shape[:2]], height first; a decoded image has at least one
    pixel in each direction. *)
Variable shape : image -> positive * positive.
(** The forward pass [MODEL(img_tensor)[0]]. *)
Variable forward : model -> image -> list (Detection mask).
(** Thresholding at 0.5, [cv2.findContours], the largest contour and
    [cv2.approxPolyDP]. *)
Variable mask_polygon : mask -> list (list Z).
(** [uuid.uuid4().hex] at the n-th call. *)
Variable uuid4_hex : nat -> string.

(** The dictionary appended for a detection that passes the score
    threshold; [n] counts the rooms built so far. *)
Definition make_room (w h : positive) (n : nat) (d : Detection mask)
    : Room :=
  let x_min_norm := fl (fl (box0 (box d) / inject_Z (Z.pos w)) * 1000) in
  let y_min_norm := fl (fl (box1 (box d) / inject_Z (Z.pos h)) * 1000) in
  let x_max_norm := fl (fl (box2 (box d) / inject_Z (Z.pos w)) * 1000) in
  let y_max_norm := fl (fl (box3 (box d) / inject_Z (Z.pos h)) * 1000) in
  {| id := "room_" +:+ String.substring 0 8 (uuid4_hex n);
     bounding_box := [ pyround x_min_norm 1; pyround y_min_norm 1;
                       pyround x_max_norm 1; pyround y_max_norm 1 ];
     bbox_pixels := {| x1 := box0 (box d); y1 := box1 (box d);
                       x2 := box2 (box d); y2 := box3 (box d) |};
     vertices := mask_polygon (det_mask d);
     confidence := pyround (score d) 3;
     name_hint := None |}.

(** The loop over the detections. *)
Definition collect_step (threshold : Q) (w h : positive)
    (rooms : list Room) (d : Detection mask) : list Room :=
  if Qltb (score d) threshold then rooms
  else rooms ++ [make_room w h (length rooms) d].

Definition collect_rooms (threshold : Q) (w h : positive)
    (outputs : list (Detection mask)) : list Room :=
  fold_left (collect_step threshold w h) outputs [].

(** [room['id'] = f"room_{i+1:03d}"]. *)
Definition set_id (new_id : string) (r : Room) : Room :=
  {| id := new_id;
     bounding_box := bounding_box r;
     bbox_pixels := bbox_pixels r;
     vertices := vertices r;
     confidence := confidence r;
     name_hint := name_hint r |}.

Definition reassign_ids (rooms : list Room) : list Room :=
  imap (fun i room => set_id ("room_" +:+ fmt_03d (i + 1)) room) rooms.

(** What the client receives when an exception that is not an
    [HTTPException] leaves the handler. *)
Definition internal_server_error : HTTPException :=
  {| status_code := 500; detail := "Internal Server Error" |}.

(** The handler of [POST /detect]; [MODEL] is the global set at startup,
    [None] when the weights file was absent.  Nothing catches the error
    that [cv2.imdecode] raises on an empty upload. *)
Definition detect_rooms (MODEL : option model) (contents : list byte)
    (threshold overlap_threshold : Q)
    : HTTPException + DetectionResult :=
  match MODEL with
  | None =>
      inl {| status_code := 503;
             detail := "Model not loaded. Place maskrcnn_best.pth in backend directory." |}
  | Some m =>
      match contents with
      | [] => inl internal_server_error
      | _ :: _ =>
          match imdecode contents with
          | None =>
              inl {| status_code := 400; detail := "Could not decode image" |}
          | Some img =>
              let '(h, w) := shape img in
              let outputs := forward m img in
              let rooms := collect_rooms threshold w h outputs in
              let rooms := remove_overlapping_rooms rooms overlap_threshold in
              let rooms := reassign_ids rooms in
              inr {| image_size := (w, h);
                     total_rooms := length rooms;
                     rooms := rooms |}
          end
      end
  end.
End Service.

(** ** The geometry the specification speaks of *)

(** Width and height of the common part of two boxes (negative or zero
    when there is none). *)
Definition overlap_width (b1 b2 : BoundingBox) : Q :=
  Qmin (x2 b1) (x2 b2) - Qmax (x1 b1) (x1 b2).

Definition overlap_height (b1 b2 : BoundingBox) : Q :=
  Qmin (y2 b1) (y2 b2) - Qmax (y1 b1) (y1 b2).

Definition box_area (b : BoundingBox) : Q :=
  (x2 b - x1 b) * (y2 b - y1 b).

Definition intersection_area (b1 b2 : BoundingBox) : Q :=
  Qmax 0 (overlap_width b1 b2) * Qmax 0 (overlap_height b1 b2).

Definition union_area (b1 b2 : BoundingBox) : Q :=
  box_area b1 + box_area b2 - intersection_area b1 b2.

(** Two rectangles with no common area. *)
Definition disjoint_boxes (b1 b2 : BoundingBox) : Prop :=
  intersection_area b1 b2 == 0.

Definition well_formed (b : BoundingBox) : Prop :=
  x1 b <= x2 b /\ y1 b <= y2 b.

(** A box without area: all four coordinates are 0. *)
Definition point_box : BoundingBox := {| x1 := 0; y1 := 0; x2 := 0; y2 := 0 |}.

(** ** Suppression, as the specification words it *)

(** Descending confidence: [a] may stand before [b]. *)
Definition conf_desc (a b : Room) : Prop := confidence b <= confidence a.

(** The rooms of confidence [q]. *)
Definition has_conf (q : Q) (r : Room) : bool := Qeq_bool (confidence r) q.

(** [s] is the stable sort of [l] by descending confidence: the same
    rooms, in descending order, the rooms of equal confidence in the order
    they have in [l]. *)
Record StableSortDesc (l s : list Room) : Prop := mkStableSortDesc {
  stable_perm : l ≡ₚ s;
  stable_sorted : StronglySorted conf_desc s;
  stable_ties : forall q, List.filter (has_conf q) s = List.filter (has_conf q) l
}.

(** The greedy pass over the candidates [cs] with [kept] already accepted:
    a candidate is accepted exactly when its IoU with every accepted room is
    at most the threshold, and rejected when one IoU exceeds it. *)
Inductive Greedy (t : Q) : list Room -> list Room -> list Room -> Prop :=
| Greedy_done kept :
    Greedy t kept [] kept
| Greedy_accept kept c cs out :
    (forall k, k ∈ kept ->
       compute_iou (bbox_pixels c) (bbox_pixels k) <= t) ->
    Greedy t (kept ++ [c]) cs out ->
    Greedy t kept (c :: cs) out
| Greedy_reject kept c cs out :
    (exists k, k ∈ kept /\
       t < compute_iou (bbox_pixels c) (bbox_pixels k)) ->
    Greedy t kept cs out ->
    Greedy t kept (c :: cs) out.

(** No room of [l] overlaps an earlier room of [l] by more than [t]. *)
Definition compatible (t : Q) (l : list Room) : Prop :=
  forall (i j : nat) (ri rj : Room),
    (i < j)%nat -> l !! i = Some ri -> l !! j = Some rj ->
    compute_iou (bbox_pixels rj) (bbox_pixels ri) <= t.

(** ** Normalised boxes *)

(** The normalised box of [r] is derived from its pixel box for an image of
    width [w] and height [h]. *)
Definition normalized (w h : positive) (r : Room) : Prop :=
  bounding_box r =
    [ normalize (x1 (bbox_pixels r)) w; normalize (y1 (bbox_pixels r)) h;
      normalize (x2 (bbox_pixels r)) w; normalize (y2 (bbox_pixels r)) h ].

(** ** Rounding, as the specification words it *)

(** [k] is the integer nearest to [y], the even one when [y] lies half-way
    between two integers. *)
Definition nearest_even (k : Z) (y : Q) : Prop :=
  Qabs (inject_Z k - y) <= 1 # 2 /\
  (Qabs (inject_Z k - y) == 1 # 2 -> Z.even k = true).


(** Half a unit in the last place of a float of magnitude 1: the relative
    error of one rounding. *)
Definition half_ulp : Q := 1 # 9007199254740992.

(** ** A small run, for the examples *)

(** Two overlapping squares and a third one apart. *)
Definition box_a : BoundingBox := {| x1 := 0; y1 := 0; x2 := 2; y2 := 2 |}.
Definition box_b : BoundingBox := {| x1 := 1; y1 := 1; x2 := 3; y2 := 3 |}.
Definition box_c : BoundingBox := {| x1 := 5; y1 := 5; x2 := 6; y2 := 6 |}.

(** Four detections on a 640 x 480 image: the second overlaps the first
    (IoU 8100/11900), the third is the most confident, the fourth is below
    the score threshold. *)
Definition sample_outputs : list (Detection unit) :=
  [ {| box := (10, 10, 110, 110); score := 9 # 10; det_mask := tt |};
    {| box := (20, 20, 120, 120); score := 8 # 10; det_mask := tt |};
    {| box := (200, 200, 300, 300); score := 95 # 100; det_mask := tt |};
    {| box := (400, 400, 450, 450); score := 5 # 10; det_mask := tt |} ].

(** The eight bytes every PNG file starts with. *)
Definition png_signature : list byte :=
  [x89; x50; x4e; x47; x0d; x0a; x1a; x0a]%byte.

Fixpoint starts_with (prefix contents : list byte) : bool :=
  match prefix, contents with
  | [], _ => true
  | _ :: _, [] => false
  | b :: prefix', c :: contents' =>
      Byte.eqb b c && starts_with prefix' contents'
  end.

(** The codecs of the examples: an upload decodes when it starts as a PNG
    file; the examples do not look at the rest of it. *)
Definition sample_imdecode (contents : list byte) : option unit :=
  if starts_with png_signature contents then Some tt else None.

(** The first bytes of a PNG file, and the text [hello], which no codec
    decodes. *)
Definition sample_png : list byte := png_signature ++ [x00; x00; x00; x0d]%byte.
Definition sample_text : list byte := [x68; x65; x6c; x6c; x6f]%byte.

Definition sample_shape (img : unit) : positive * positive :=
  (480%positive, 640%positive).

Definition sample_forward (m img : unit) : list (Detection unit) :=
  sample_outputs.

Definition sample_polygon (mask : unit) : list (list Z) :=
  [[0; 0]; [4; 0]; [4; 3]]%Z.

Definition sample_uuid (n : nat) : string :=
  "9f1c2ab47d3e4c0fa1b2c3d4e5f60718".

(** [/detect] with the default thresholds 0.7 and 0.3. *)
Definition sample_detect (MODEL : option unit) (contents : list byte)
    : HTTPException + DetectionResult :=
  detect_rooms unit unit unit sample_imdecode sample_shape sample_forward
    sample_polygon sample_uuid MODEL contents (7 # 10) (3 # 10).

Definition no_result : DetectionResult :=
  {| image_size := (1%positive, 1%positive); total_rooms := 0; rooms := [] |}.

Definition sample_result : DetectionResult :=
  match sample_detect (Some tt) sample_png with
  | inr r => r
  | inl _ => no_result
  end.

Definition no_room : Room :=
  {| id := ""; bounding_box := []; bbox_pixels := point_box;
     vertices := []; confidence := 0; name_hint := None |}.

Definition sample_first : Room := default no_room (rooms sample_result !! 0%nat).
Definition sample_second : Room := default no_room (rooms sample_result !! 1%nat).

(** Three candidates: the first and the third have the same confidence and
    overlap with IoU 1/7, the second is the most confident and apart. *)
Definition candidate (name : string) (b : BoundingBox) (c : Q) : Room :=
  {| id := name; bounding_box := []; bbox_pixels := b;
     vertices := []; confidence := c; name_hint := None |}.

Definition sample_candidates : list Room :=
  [ candidate "first" box_a (5 # 10);
    candidate "second" box_c (9 # 10);
    candidate "third" box_b (5 # 10) ].

(** ** Further notions used by the properties *)

(** Any two rooms at different places of [l] have an IoU of at most [t]. *)
Definition pairwise_within (t : Q) (l : list Room) : Prop :=
  ForallOrdPairs
    (fun a b => compute_iou (bbox_pixels a) (bbox_pixels b) <= t) l.

(** Two rooms that differ at most in their identifier. *)
Definition same_but_id (r r' : Room) : Prop :=
  bounding_box r = bounding_box r' /\
  bbox_pixels r = bbox_pixels r' /\
  vertices r = vertices r' /\
  confidence r = confidence r' /\
  name_hint r = name_hint r'.

(** The number written in a string of decimal digits, as Python's
    [int(s)] reads it; leading zeros are allowed. *)
Definition int_of_digits (s : string) : option nat :=
  Nat.of_uint <$> NilEmpty.uint_of_string s.

(** ** Start-up and [/health] *)

(** [torch.device("cuda")] and [torch.device("cpu")]. *)
Inductive Device : Type := cuda | cpu.

(** [str(DEVICE)]. *)
Definition device_str (d : Device) : string :=
  match d with
  | cuda => "cuda"
  | cpu => "cpu"
  end.

(** The module globals [MODEL] and [DEVICE]. *)
Record Globals (model : Type) : Type := mkGlobals {
  MODEL : option model;
  DEVICE : option Device
}.
Arguments mkGlobals {model}.
Arguments MODEL {model}.
Arguments DEVICE {model}.

(** Both globals are [None] when the module is imported. *)
Definition initial_globals (model : Type) : Globals model :=
  {| MODEL := None; DEVICE := None |}.

(** The outcome of the start-up hook: it returns, or an exception of the
    loading code escapes it; the globals are given in both cases. *)
Inductive Startup (model : Type) : Type :=
| Started (g : Globals model)
| Raised (g : Globals model).
Arguments Started {model}.
Arguments Raised {model}.

(** The dictionary returned by [/health]. *)
Record Health : Type := mkHealth {
  status : string;
  model_loaded : bool;
  device : option string
}.

Section Startup.
Variables model checkpoint : Type.
(** [torch.cuda.is_available()] and [MODEL_PATH.exists()]. *)
Variable cuda_is_available : bool.
Variable model_path_exists : bool.
(** The architecture built by [get_maskrcnn_model(num_classes)], with the
    pretrained default weights; [None] when building it raises. *)
Variable get_maskrcnn_model : nat -> option model.
(** [torch.load(MODEL_PATH, map_location=DEVICE)]; [None] when it raises. *)
Variable torch_load : Device -> option checkpoint.
(** [load_state_dict(checkpoint['model_state_dict'])] followed by
    [to(DEVICE)] and [eval()]; [None] when the key is missing or the
    weights do not fit. *)
Variable load_state_dict : model -> checkpoint -> Device -> option model.

Definition load_model (g : Globals model) : Startup model :=
  let DEVICE' := if cuda_is_available then cuda else cpu in
  if negb model_path_exists then
    Started {| MODEL := MODEL g; DEVICE := Some DEVICE' |}
  else
    match get_maskrcnn_model 2 with
    | None => Raised {| MODEL := MODEL g; DEVICE := Some DEVICE' |}
    | Some MODEL' =>
        match torch_load DEVICE' with
        | None => Raised {| MODEL := Some MODEL'; DEVICE := Some DEVICE' |}
        | Some ckpt =>
            match load_state_dict MODEL' ckpt DEVICE' with
            | None =>
                Raised {| MODEL := Some MODEL'; DEVICE := Some DEVICE' |}
            | Some loaded =>
                Started {| MODEL := Some loaded; DEVICE := Some DEVICE' |}
            end
        end
    end.

Definition health (g : Globals model) : Health :=
  {| status := "healthy";
     model_loaded := match MODEL g with Some _ => true | None => false end;
     device := match DEVICE g with
               | Some d => Some (device_str d)
               | None => None
               end |}.
End Startup.

(** The start-up of the examples: no GPU, no weights file. *)
Definition sample_startup : Startup unit :=
  load_model unit unit false false (fun _ => Some tt) (fun _ => Some tt)
    (fun _ _ _ => Some tt) (initial_globals unit).

(** Further data for the examples. *)
Definition sample_lookalike : list Room :=
  [ candidate "second" box_c (9 # 10);
    candidate "third" box_b (5 # 10);
    candidate "first" box_a (4 # 10) ].

Definition sample_shuffled : list Room :=
  [ candidate "first" box_a (4 # 10);
    candidate "second" box_c (9 # 10);
    candidate "third" box_b (5 # 10) ].

Definition sample_apart : list Room :=
  [ candidate "first" box_a (5 # 10); candidate "second" box_c (9 # 10) ].

(** * Properties *)

(** ** Formatting and rounding on examples *)

Example fmt_03d_7 : fmt_03d 7 = "007"%string.
Proof. reflexivity. Qed.
Example fmt_03d_42 : fmt_03d 42 = "042"%string.
Proof. reflexivity. Qed.
Example fmt_03d_1000 : fmt_03d 1000 = "1000"%string.
Proof. reflexivity. Qed.
(** [round(12.345, 1)], [round(0.25, 1)], [round(0.35, 1)], [round(-0.26, 1)]
    and [round(2.675, 2)], as Python prints them: 12.3, 0.2, 0.3, -0.3 and
    2.67. *)
Example pyround_ex1 : pyround (fl (12345 # 1000)) 1 == fl (123 # 10).
Proof. reflexivity. Qed.
Example pyround_ex2 : pyround (fl (25 # 100)) 1 == fl (2 # 10).
Proof. reflexivity. Qed.
Example pyround_ex3 : pyround (fl (35 # 100)) 1 == fl (3 # 10).
Proof. reflexivity. Qed.
Example pyround_ex4 : pyround (fl (- (26 # 100))) 1 == fl (- (3 # 10)).
Proof. reflexivity. Qed.
Example pyround_ex5 : pyround (fl (2675 # 1000)) 2 == fl (267 # 100).
Proof. reflexivity. Qed.

(** The float 0.1 is 3602879701896397 / 2^55. *)
Example fl_tenth : fl (1 # 10) == 3602879701896397 # 36028797018963968.
Proof. reflexivity. Qed.

(** [round(101.5 / 400 * 1000, 1)] is 253.7: the quotient in floats is just
    below the tie 253.75. *)
Example normalize_below_tie : normalize (1015 # 10) 400 == fl (2537 # 10).
Proof. reflexivity. Qed.

(** ** Comparisons and Python's [max] and [min] *)

Lemma Qltb_lt (a b : Q) : Qltb a b = true <-> a < b.
Proof. unfold Qltb, Qlt. apply Z.ltb_lt. Qed.

Lemma Qltb_ge (a b : Q) : Qltb a b = false <-> b <= a.
Proof. unfold Qltb, Qle. apply Z.ltb_ge. Qed.

Lemma Qle_bool_gt (a b : Q) : Qle_bool a b = false <-> b < a.
Proof.
  unfold Qle_bool, Qlt. rewrite Z.leb_gt. reflexivity.
Qed.

Lemma pymax_Qmax (a b : Q) : pymax a b == Qmax a b.
Proof.
  unfold pymax. destruct (Qltb a b) eqn:E.
  - apply Qltb_lt in E. symmetry. apply Q.max_r. lra.
  - apply Qltb_ge in E. symmetry. apply Q.max_l. lra.
Qed.

Lemma pymin_Qmin (a b : Q) : pymin a b == Qmin a b.
Proof.
  unfold pymin. destruct (Qltb b a) eqn:E.
  - apply Qltb_lt in E. symmetry. apply Q.min_r. lra.
  - apply Qltb_ge in E. symmetry. apply Q.min_l. lra.
Qed.

(** ** [compute_iou] *)

(** The value of [compute_iou] in terms of the overlap of the boxes. *)
Lemma compute_iou_no_overlap (b1 b2 : BoundingBox) :
  overlap_width b1 b2 <= 0 \/ overlap_height b1 b2 <= 0 ->
  compute_iou b1 b2 = 0.
Proof.
  unfold overlap_width, overlap_height, compute_iou. intros H.
  destruct (Qle_bool (pymin (x2 b1) (x2 b2)) (pymax (x1 b1) (x1 b2))) eqn:Ex;
    [reflexivity|].
  destruct (Qle_bool (pymin (y2 b1) (y2 b2)) (pymax (y1 b1) (y1 b2))) eqn:Ey;
    [reflexivity|].
  exfalso. apply Qle_bool_gt in Ex, Ey.
  rewrite pymax_Qmax, pymin_Qmin in Ex, Ey. lra.
Qed.

Lemma overlap_intersection (b1 b2 : BoundingBox) :
  0 < overlap_width b1 b2 -> 0 < overlap_height b1 b2 ->
  intersection_area b1 b2 == overlap_width b1 b2 * overlap_height b1 b2.
Proof.
  intros Hw Hh. unfold intersection_area.
  rewrite (Q.max_r 0 (overlap_width b1 b2)) by lra.
  rewrite (Q.max_r 0 (overlap_height b1 b2)) by lra. reflexivity.
Qed.

Lemma overlap_width_le (b1 b2 : BoundingBox) :
  overlap_width b1 b2 <= x2 b1 - x1 b1 /\
  overlap_width b1 b2 <= x2 b2 - x1 b2.
Proof.
  unfold overlap_width.
  pose proof (Q.le_min_l (x2 b1) (x2 b2)). pose proof (Q.le_min_r (x2 b1) (x2 b2)).
  pose proof (Q.le_max_l (x1 b1) (x1 b2)). pose proof (Q.le_max_r (x1 b1) (x1 b2)).
  lra.
Qed.

Lemma overlap_height_le (b1 b2 : BoundingBox) :
  overlap_height b1 b2 <= y2 b1 - y1 b1 /\
  overlap_height b1 b2 <= y2 b2 - y1 b2.
Proof.
  unfold overlap_height.
  pose proof (Q.le_min_l (y2 b1) (y2 b2)). pose proof (Q.le_min_r (y2 b1) (y2 b2)).
  pose proof (Q.le_max_l (y1 b1) (y1 b2)). pose proof (Q.le_max_r (y1 b1) (y1 b2)).
  lra.
Qed.

(** Overlapping boxes: the common part is no larger than either box, so
    the union is at least the intersection and positive. *)
Lemma overlap_union_bounds (b1 b2 : BoundingBox) :
  0 < overlap_width b1 b2 -> 0 < overlap_height b1 b2 ->
  0 < intersection_area b1 b2 <= union_area b1 b2.
Proof.
  intros Hw Hh. unfold union_area, box_area.
  rewrite (overlap_intersection b1 b2 Hw Hh).
  destruct (overlap_width_le b1 b2) as [Hw1 Hw2].
  destruct (overlap_height_le b1 b2) as [Hh1 Hh2].
  split; nra.
Qed.

Lemma compute_iou_overlap (b1 b2 : BoundingBox) :
  0 < overlap_width b1 b2 -> 0 < overlap_height b1 b2 ->
  compute_iou b1 b2 == intersection_area b1 b2 / union_area b1 b2.
Proof.
  intros Hw Hh.
  destruct (overlap_union_bounds b1 b2 Hw Hh) as [Hi Hu].
  unfold union_area, box_area in *.
  rewrite (overlap_intersection b1 b2 Hw Hh) in *.
  unfold overlap_width, overlap_height, compute_iou in *.
  rewrite <- !pymax_Qmax, <- !pymin_Qmin in *.
  destruct (Qle_bool (pymin (x2 b1) (x2 b2)) (pymax (x1 b1) (x1 b2))) eqn:Ex.
  { apply Qle_bool_iff in Ex. lra. }
  destruct (Qle_bool (pymin (y2 b1) (y2 b2)) (pymax (y1 b1) (y1 b2))) eqn:Ey.
  { apply Qle_bool_iff in Ey. lra. }
  cbn [orb].
  match goal with |- (if Qltb 0 ?u then _ else _) == _ =>
    destruct (Qltb 0 u) eqn:Eu end.
  - reflexivity.
  - apply Qltb_ge in Eu. lra.
Qed.

Lemma overlap_width_comm (b1 b2 : BoundingBox) :
  overlap_width b1 b2 == overlap_width b2 b1.
Proof.
  unfold overlap_width.
  rewrite (Q.min_comm (x2 b1)), (Q.max_comm (x1 b1)). reflexivity.
Qed.

Lemma overlap_height_comm (b1 b2 : BoundingBox) :
  overlap_height b1 b2 == overlap_height b2 b1.
Proof.
  unfold overlap_height.
  rewrite (Q.min_comm (y2 b1)), (Q.max_comm (y1 b1)). reflexivity.
Qed.

Lemma intersection_area_comm (b1 b2 : BoundingBox) :
  intersection_area b1 b2 == intersection_area b2 b1.
Proof.
  unfold intersection_area.
  rewrite (overlap_width_comm b1 b2), (overlap_height_comm b1 b2).
  reflexivity.
Qed.

Lemma union_area_comm (b1 b2 : BoundingBox) :
  union_area b1 b2 == union_area b2 b1.
Proof.
  unfold union_area. rewrite (intersection_area_comm b1 b2). ring.
Qed.

Lemma disjoint_boxes_overlap (b1 b2 : BoundingBox) :
  disjoint_boxes b1 b2 <->
  overlap_width b1 b2 <= 0 \/ overlap_height b1 b2 <= 0.
Proof.
  unfold disjoint_boxes. split.
  - intros H.
    destruct (Qlt_le_dec 0 (overlap_width b1 b2)) as [Hw|Hw]; [|now left].
    destruct (Qlt_le_dec 0 (overlap_height b1 b2)) as [Hh|Hh]; [|now right].
    destruct (overlap_union_bounds b1 b2 Hw Hh) as [Hi _]. lra.
  - unfold intersection_area. intros [H|H].
    + rewrite (Q.max_l 0 (overlap_width b1 b2)) by exact H. ring.
    + rewrite (Q.max_l 0 (overlap_height b1 b2)) by exact H. ring.
Qed.

(** [compute_iou] is symmetric in its arguments. *)
Lemma compute_iou_sym (b1 b2 : BoundingBox) :
  compute_iou b1 b2 == compute_iou b2 b1.
Proof.
  destruct (Qlt_le_dec 0 (overlap_width b1 b2)) as [Hw|Hw].
  - destruct (Qlt_le_dec 0 (overlap_height b1 b2)) as [Hh|Hh].
    + rewrite (compute_iou_overlap b1 b2 Hw Hh).
      rewrite overlap_width_comm in Hw. rewrite overlap_height_comm in Hh.
      rewrite (compute_iou_overlap b2 b1 Hw Hh).
      rewrite (intersection_area_comm b1 b2), (union_area_comm b1 b2).
      reflexivity.
    + rewrite (compute_iou_no_overlap b1 b2) by now right.
      rewrite overlap_height_comm in Hh.
      rewrite (compute_iou_no_overlap b2 b1) by now right. reflexivity.
  - rewrite (compute_iou_no_overlap b1 b2) by now left.
    rewrite overlap_width_comm in Hw.
    rewrite (compute_iou_no_overlap b2 b1) by now left. reflexivity.
Qed.

(** The result is a ratio between 0 and 1, for all boxes. *)
Lemma compute_iou_range (b1 b2 : BoundingBox) :
  0 <= compute_iou b1 b2 <= 1.
Proof.
  destruct (Qlt_le_dec 0 (overlap_width b1 b2)) as [Hw|Hw].
  - destruct (Qlt_le_dec 0 (overlap_height b1 b2)) as [Hh|Hh].
    + rewrite (compute_iou_overlap b1 b2 Hw Hh).
      destruct (overlap_union_bounds b1 b2 Hw Hh) as [Hi Hu].
      split.
      * apply Qle_shift_div_l; lra.
      * apply Qle_shift_div_r; lra.
    + rewrite (compute_iou_no_overlap b1 b2) by now right. lra.
  - rewrite (compute_iou_no_overlap b1 b2) by now left. lra.
Qed.

(** C2.  [compute_iou] returns the intersection area of the two
    rectangles divided by their union area; it returns 0 when the
    rectangles do not overlap (the width or the height of the common part
    is not positive) and when the union area is not positive. *)
Theorem compute_iou_intersection_over_union (b1 b2 : BoundingBox) :
  (0 < union_area b1 b2 ->
     compute_iou b1 b2 == intersection_area b1 b2 / union_area b1 b2) /\
  (overlap_width b1 b2 <= 0 \/ overlap_height b1 b2 <= 0 ->
     compute_iou b1 b2 = 0) /\
  (union_area b1 b2 <= 0 -> compute_iou b1 b2 = 0).
Proof.
  split; [|split].
  - intros Hu.
    destruct (Qlt_le_dec 0 (overlap_width b1 b2)) as [Hw|Hw];
      [destruct (Qlt_le_dec 0 (overlap_height b1 b2)) as [Hh|Hh]|].
    + now apply compute_iou_overlap.
    + rewrite (compute_iou_no_overlap b1 b2) by now right.
      assert (Hd : disjoint_boxes b1 b2)
        by (apply disjoint_boxes_overlap; now right).
      unfold disjoint_boxes in Hd. rewrite Hd. field. lra.
    + rewrite (compute_iou_no_overlap b1 b2) by now left.
      assert (Hd : disjoint_boxes b1 b2)
        by (apply disjoint_boxes_overlap; now left).
      unfold disjoint_boxes in Hd. rewrite Hd. field. lra.
  - apply compute_iou_no_overlap.
  - intros Hu. apply compute_iou_no_overlap.
    destruct (Qlt_le_dec 0 (overlap_width b1 b2)) as [Hw|Hw]; [|now left].
    destruct (Qlt_le_dec 0 (overlap_height b1 b2)) as [Hh|Hh]; [|now right].
    destruct (overlap_union_bounds b1 b2 Hw Hh). lra.
Qed.

(** C5, as stated, fails: the IoU of a box without area with itself is 0,
    not 1. *)
Lemma compute_iou_self_point_box :
  compute_iou point_box point_box = 0 /\
  ~ (forall b : BoundingBox, compute_iou b b == 1).
Proof.
  split; [reflexivity|].
  intros H. specialize (H point_box). vm_compute in H. discriminate H.
Qed.

(** C5, amended.  The IoU of a box of positive width and height with
    itself is 1, and the IoU of two disjoint boxes is 0. *)
Theorem compute_iou_self_and_disjoint (b b1 b2 : BoundingBox) :
  (x1 b < x2 b -> y1 b < y2 b -> compute_iou b b == 1) /\
  (disjoint_boxes b1 b2 -> compute_iou b1 b2 = 0).
Proof.
  split.
  - intros Hx Hy.
    assert (Hw : overlap_width b b == x2 b - x1 b).
    { unfold overlap_width. rewrite Q.min_id, Q.max_id. reflexivity. }
    assert (Hh : overlap_height b b == y2 b - y1 b).
    { unfold overlap_height. rewrite Q.min_id, Q.max_id. reflexivity. }
    assert (Hw0 : 0 < overlap_width b b) by lra.
    assert (Hh0 : 0 < overlap_height b b) by lra.
    rewrite (compute_iou_overlap b b Hw0 Hh0).
    destruct (overlap_union_bounds b b Hw0 Hh0) as [Hi Hu].
    assert (Hiu : union_area b b == intersection_area b b).
    { unfold union_area, box_area.
      rewrite (overlap_intersection b b Hw0 Hh0), Hw, Hh. ring. }
    rewrite Hiu. field. lra.
  - intros Hd. apply compute_iou_no_overlap.
    now apply disjoint_boxes_overlap.
Qed.

(** C10.  [compute_iou] is symmetric, and for well-formed boxes its
    result lies between 0 and 1. *)
Theorem compute_iou_symmetric_bounded (a b : BoundingBox) :
  compute_iou a b == compute_iou b a /\
  (well_formed a -> well_formed b -> 0 <= compute_iou a b <= 1).
Proof.
  split.
  - apply compute_iou_sym.
  - intros _ _. apply compute_iou_range.
Qed.

(** ** The stable sort *)

Lemma insert_desc_perm (r : Room) (l : list Room) :
  insert_desc r l ≡ₚ r :: l.
Proof.
  induction l as [|y l IH]; simpl; [reflexivity|].
  destruct (Qltb (confidence r) (confidence y)); [|reflexivity].
  rewrite IH. apply Permutation_swap.
Qed.

Lemma sorted_desc_perm (l : list Room) : l ≡ₚ sorted_desc l.
Proof.
  induction l as [|r l IH]; simpl; [reflexivity|].
  rewrite insert_desc_perm. now constructor.
Qed.

Lemma conf_desc_trans (a b c : Room) :
  conf_desc a b -> conf_desc b c -> conf_desc a c.
Proof. unfold conf_desc. intros. lra. Qed.

Lemma insert_desc_sorted (r : Room) (l : list Room) :
  StronglySorted conf_desc l -> StronglySorted conf_desc (insert_desc r l).
Proof.
  induction 1 as [|y l Hl IH Hy]; simpl.
  - repeat constructor.
  - destruct (Qltb (confidence r) (confidence y)) eqn:E.
    + apply Qltb_lt in E. constructor; [exact IH|].
      rewrite insert_desc_perm. constructor; [|exact Hy].
      unfold conf_desc. lra.
    + apply Qltb_ge in E. constructor; [now constructor|].
      constructor; [exact E|].
      eapply Forall_impl; [exact Hy|].
      intros z Hz. apply (conf_desc_trans r y z); assumption.
Qed.

Lemma sorted_desc_sorted (l : list Room) :
  StronglySorted conf_desc (sorted_desc l).
Proof.
  induction l as [|r l IH]; simpl; [constructor|].
  now apply insert_desc_sorted.
Qed.

Lemma insert_desc_ties (q : Q) (r : Room) (l : list Room) :
  List.filter (has_conf q) (insert_desc r l) = List.filter (has_conf q) (r :: l).
Proof.
  induction l as [|y l IH]; [reflexivity|].
  cbn [insert_desc].
  destruct (Qltb (confidence r) (confidence y)) eqn:E; [|reflexivity].
  apply Qltb_lt in E.
  cbn [List.filter] in *. rewrite IH.
  unfold has_conf.
  destruct (Qeq_bool (confidence r) q) eqn:Er; [|reflexivity].
  destruct (Qeq_bool (confidence y) q) eqn:Ey; [|reflexivity].
  apply Qeq_bool_iff in Er, Ey. lra.
Qed.

Lemma sorted_desc_ties (q : Q) (l : list Room) :
  List.filter (has_conf q) (sorted_desc l) = List.filter (has_conf q) l.
Proof.
  induction l as [|r l IH]; [reflexivity|].
  cbn [sorted_desc foldr]. rewrite insert_desc_ties.
  cbn [List.filter]. fold (sorted_desc l). now rewrite IH.
Qed.

(** [sorted_desc] is a stable sort by descending confidence. *)
Lemma sorted_desc_stable (l : list Room) : StableSortDesc l (sorted_desc l).
Proof.
  constructor.
  - apply sorted_desc_perm.
  - apply sorted_desc_sorted.
  - intros q. apply sorted_desc_ties.
Qed.

(** A list in descending order is left as it is. *)
Lemma sorted_desc_id (l : list Room) :
  StronglySorted conf_desc l -> sorted_desc l = l.
Proof.
  induction 1 as [|r l Hl IH Hr]; [reflexivity|].
  cbn [sorted_desc foldr]. fold (sorted_desc l). rewrite IH.
  destruct l as [|y l']; [reflexivity|].
  cbn [insert_desc]. inversion Hr as [|? ? Hy _]; subst.
  unfold conf_desc in Hy. apply Qltb_ge in Hy. now rewrite Hy.
Qed.

Lemma filter_has_conf_In (l l' : list Room) (x : Room) :
  (forall q, List.filter (has_conf q) l = List.filter (has_conf q) l') ->
  In x l -> In x l'.
Proof.
  intros H Hx.
  assert (Hx' : In x (List.filter (has_conf (confidence x)) l)).
  { apply filter_In. split; [exact Hx|]. apply Qeq_bool_refl. }
  rewrite H in Hx'. apply filter_In in Hx'. tauto.
Qed.

(** Two descending lists with the same rooms of every confidence, in the
    same order, are equal. *)
Lemma sorted_ties_unique (s s' : list Room) :
  StronglySorted conf_desc s -> StronglySorted conf_desc s' ->
  (forall q, List.filter (has_conf q) s = List.filter (has_conf q) s') ->
  s = s'.
Proof.
  intros Hs. revert s'.
  induction Hs as [|a s Hs IH Ha]; intros s' Hs' Hq.
  - destruct s' as [|b s']; [reflexivity|].
    specialize (Hq (confidence b)). cbn in Hq. unfold has_conf in Hq.
    rewrite Qeq_bool_refl in Hq. discriminate Hq.
  - destruct Hs' as [|b s' Hs' Hb].
    { specialize (Hq (confidence a)). cbn in Hq. unfold has_conf in Hq.
      rewrite Qeq_bool_refl in Hq. discriminate Hq. }
    assert (Hab : confidence a == confidence b).
    { apply Qle_antisym.
      - assert (H : In a (b :: s'))
          by (apply (filter_has_conf_In (a :: s)); [exact Hq | now left]).
        destruct H as [->|H]; [lra|].
        rewrite Forall_forall in Hb. apply Hb. now apply list_elem_of_In.
      - assert (H : In b (a :: s)).
        { apply (filter_has_conf_In (b :: s'));
            [intros q; symmetry; apply Hq | now left]. }
        destruct H as [->|H]; [lra|].
        rewrite Forall_forall in Ha. apply Ha. now apply list_elem_of_In. }
    assert (Heq : a = b).
    { specialize (Hq (confidence a)). cbn in Hq. unfold has_conf in Hq.
      rewrite Qeq_bool_refl in Hq.
      assert (E : Qeq_bool (confidence b) (confidence a) = true)
        by (apply Qeq_bool_iff; now symmetry).
      rewrite E in Hq. congruence. }
    subst b. f_equal. apply IH; [exact Hs'|].
    intros q. specialize (Hq q). cbn in Hq.
    destruct (has_conf q a); congruence.
Qed.

Lemma StableSortDesc_unique (l s s' : list Room) :
  StableSortDesc l s -> StableSortDesc l s' -> s = s'.
Proof.
  intros [_ Hs Ht] [_ Hs' Ht'].
  apply sorted_ties_unique; [assumption..|].
  intros q. now rewrite Ht, Ht'.
Qed.

(** ** The greedy pass *)

Lemma overlaps_kept_true (t : Q) (room : Room) (kept : list Room) :
  overlaps_kept t room kept = true <->
  exists k, k ∈ kept /\ t < compute_iou (bbox_pixels room) (bbox_pixels k).
Proof.
  induction kept as [|k0 kept IH]; cbn [overlaps_kept].
  - split; [discriminate|]. intros (k & Hk & _). inversion Hk.
  - destruct (Qltb t (compute_iou (bbox_pixels room) (bbox_pixels k0))) eqn:E.
    + apply Qltb_lt in E. split; [|reflexivity].
      intros _. exists k0. split; [left|exact E].
    + apply Qltb_ge in E. rewrite IH. split.
      * intros (k & Hk & Hlt). exists k. split; [now right|exact Hlt].
      * intros (k & Hk & Hlt). apply elem_of_cons in Hk as [->|Hk]; [lra|].
        exists k. now split.
Qed.

Lemma overlaps_kept_false (t : Q) (room : Room) (kept : list Room) :
  overlaps_kept t room kept = false <->
  forall k, k ∈ kept -> compute_iou (bbox_pixels room) (bbox_pixels k) <= t.
Proof.
  induction kept as [|k0 kept IH]; cbn [overlaps_kept].
  - split; [|reflexivity]. intros _ k Hk. inversion Hk.
  - destruct (Qltb t (compute_iou (bbox_pixels room) (bbox_pixels k0))) eqn:E.
    + apply Qltb_lt in E. split; [discriminate|].
      intros H. specialize (H k0 ltac:(left)). lra.
    + apply Qltb_ge in E. rewrite IH. split.
      * intros H k Hk. apply elem_of_cons in Hk as [->|Hk]; [exact E|].
        now apply H.
      * intros H k Hk. apply H. now right.
Qed.

(** The loop of the source computes the greedy pass of the specification. *)
Lemma fold_keep_step_Greedy (t : Q) (cs kept : list Room) :
  Greedy t kept cs (fold_left (keep_step t) cs kept).
Proof.
  revert kept. induction cs as [|c cs IH]; intros kept; cbn [fold_left].
  - constructor.
  - unfold keep_step at 2.
    destruct (overlaps_kept t c kept) eqn:E.
    + apply Greedy_reject; [now apply overlaps_kept_true|apply IH].
    + apply Greedy_accept; [now apply overlaps_kept_false|apply IH].
Qed.

(** The greedy pass has one result only. *)
Lemma Greedy_functional (t : Q) (kept cs out out' : list Room) :
  Greedy t kept cs out -> Greedy t kept cs out' -> out = out'.
Proof.
  intros H. revert out'.
  induction H as [kept|kept c cs out Hall _ IH|kept c cs out Hex _ IH];
    intros out' H'; inversion H' as [|? ? ? ? Hall' H''|? ? ? ? Hex' H'']; subst.
  - reflexivity.
  - now apply IH.
  - destruct Hex' as (k & Hk & Hlt). specialize (Hall k Hk). lra.
  - destruct Hex as (k & Hk & Hlt). specialize (Hall' k Hk). lra.
  - now apply IH.
Qed.

(** The kept rooms stay in front, and what follows them is chosen among the
    candidates, in their order. *)
Lemma fold_keep_step_sublist (t : Q) (cs kept : list Room) :
  exists picked, fold_left (keep_step t) cs kept = kept ++ picked /\
                 picked `sublist_of` cs.
Proof.
  revert kept. induction cs as [|c cs IH]; intros kept; cbn [fold_left].
  - exists []. split; [now rewrite app_nil_r|constructor].
  - unfold keep_step at 2. destruct (overlaps_kept t c kept).
    + destruct (IH kept) as (p & -> & Hp). exists p.
      split; [reflexivity|now apply sublist_cons].
    + destruct (IH (kept ++ [c])) as (p & -> & Hp). exists (c :: p).
      split; [now rewrite <- app_assoc|now apply sublist_skip].
Qed.

Lemma compatible_nil (t : Q) : compatible t [].
Proof. intros i j ri rj _ H. inversion H. Qed.

Lemma compatible_snoc (t : Q) (kept : list Room) (c : Room) :
  compatible t kept ->
  (forall k, k ∈ kept -> compute_iou (bbox_pixels c) (bbox_pixels k) <= t) ->
  compatible t (kept ++ [c]).
Proof.
  intros Hc Hall i j ri rj Hij Hi Hj.
  assert (Hjlen : (j < length (kept ++ [c]))%nat) by (eapply lookup_lt_Some; eauto).
  rewrite length_app in Hjlen. cbn in Hjlen.
  rewrite lookup_app_l in Hi by lia.
  destruct (decide (j = length kept)) as [->|Hne].
  - rewrite list_lookup_middle in Hj by reflexivity.
    injection Hj as <-. apply Hall. eapply list_elem_of_lookup_2; eauto.
  - rewrite lookup_app_l in Hj by lia. exact (Hc i j ri rj Hij Hi Hj).
Qed.

Lemma fold_keep_step_compatible (t : Q) (cs kept : list Room) :
  compatible t kept -> compatible t (fold_left (keep_step t) cs kept).
Proof.
  revert kept. induction cs as [|c cs IH]; intros kept Hk; cbn [fold_left].
  - exact Hk.
  - apply IH. unfold keep_step.
    destruct (overlaps_kept t c kept) eqn:E; [exact Hk|].
    apply compatible_snoc; [exact Hk|now apply overlaps_kept_false].
Qed.

(** On candidates none of which overlaps an earlier one, the pass keeps
    every candidate. *)
Lemma fold_keep_step_compatible_id (t : Q) (cs kept : list Room) :
  compatible t (kept ++ cs) -> fold_left (keep_step t) cs kept = kept ++ cs.
Proof.
  revert kept. induction cs as [|c cs IH]; intros kept Hc; cbn [fold_left].
  - now rewrite app_nil_r.
  - assert (E : overlaps_kept t c kept = false).
    { apply overlaps_kept_false. intros k Hk.
      apply list_elem_of_lookup in Hk as [i Hi].
      assert (Hlen : (i < length kept)%nat) by (eapply lookup_lt_Some; eauto).
      apply (Hc i (length kept) k c Hlen).
      - now rewrite lookup_app_l.
      - now rewrite list_lookup_middle. }
    unfold keep_step at 2. rewrite E.
    rewrite IH; rewrite <- app_assoc; [reflexivity|exact Hc].
Qed.

Lemma StronglySorted_sublist {A} (R : A -> A -> Prop) (l k : list A) :
  l `sublist_of` k -> StronglySorted R k -> StronglySorted R l.
Proof.
  induction 1 as [|x l k Hlk IH|x l k Hlk IH]; intros Hk.
  - constructor.
  - apply StronglySorted_inv in Hk as [Hk Hx].
    constructor; [now apply IH|].
    rewrite Forall_forall in *. intros y Hy. apply Hx.
    eapply sublist_subseteq; eauto.
  - apply StronglySorted_inv in Hk as [Hk _]. now apply IH.
Qed.

(** ** [remove_overlapping_rooms] *)

Lemma remove_overlapping_rooms_fold (rooms : list Room) (t : Q) :
  remove_overlapping_rooms rooms t =
  fold_left (keep_step t) (sorted_desc rooms) [].
Proof. destruct rooms; reflexivity. Qed.

Lemma remove_overlapping_rooms_sublist (rooms : list Room) (t : Q) :
  remove_overlapping_rooms rooms t `sublist_of` sorted_desc rooms.
Proof.
  rewrite remove_overlapping_rooms_fold.
  destruct (fold_keep_step_sublist t (sorted_desc rooms) []) as (p & -> & Hp).
  exact Hp.
Qed.

Lemma remove_overlapping_rooms_sorted (rooms : list Room) (t : Q) :
  StronglySorted conf_desc (remove_overlapping_rooms rooms t).
Proof.
  eapply StronglySorted_sublist.
  - apply remove_overlapping_rooms_sublist.
  - apply sorted_desc_sorted.
Qed.

Lemma remove_overlapping_rooms_compatible (rooms : list Room) (t : Q) :
  compatible t (remove_overlapping_rooms rooms t).
Proof.
  rewrite remove_overlapping_rooms_fold.
  apply fold_keep_step_compatible, compatible_nil.
Qed.

Lemma remove_overlapping_rooms_submseteq (rooms : list Room) (t : Q) :
  remove_overlapping_rooms rooms t ⊆+ rooms.
Proof.
  apply submseteq_sublist_l. exists (sorted_desc rooms). split.
  - apply remove_overlapping_rooms_sublist.
  - symmetry. apply sorted_desc_perm.
Qed.

(** C1.  [remove_overlapping_rooms] returns exactly the result of
    stable-sorting the candidates by descending confidence (ties keep their
    original order) and then greedily keeping a candidate if and only if its
    IoU with every candidate kept so far is at most the threshold; the output
    is a subset of the input in descending-confidence order, and the empty
    input gives the empty output. *)
Theorem remove_overlapping_rooms_stable_greedy (rooms : list Room) (t : Q) :
  (exists s, StableSortDesc rooms s /\
             Greedy t [] s (remove_overlapping_rooms rooms t)) /\
  (forall s out, StableSortDesc rooms s -> Greedy t [] s out ->
                 out = remove_overlapping_rooms rooms t) /\
  remove_overlapping_rooms rooms t ⊆+ rooms /\
  StronglySorted conf_desc (remove_overlapping_rooms rooms t) /\
  remove_overlapping_rooms [] t = [].
Proof.
  assert (Hg : Greedy t [] (sorted_desc rooms) (remove_overlapping_rooms rooms t)).
  { rewrite remove_overlapping_rooms_fold. apply fold_keep_step_Greedy. }
  repeat split.
  - exists (sorted_desc rooms). split; [apply sorted_desc_stable|exact Hg].
  - intros s out Hs Hout.
    rewrite (StableSortDesc_unique rooms s (sorted_desc rooms) Hs
               (sorted_desc_stable rooms)) in Hout.
    exact (Greedy_functional t [] (sorted_desc rooms) _ _ Hout Hg).
  - apply remove_overlapping_rooms_submseteq.
  - apply remove_overlapping_rooms_sorted.
Qed.

(** C3.  The output of [remove_overlapping_rooms] is no longer than its
    input, and no two rooms at different places of the output have an IoU of
    their pixel boxes strictly above the threshold. *)
Theorem remove_overlapping_rooms_no_overlap (rooms : list Room) (t : Q) :
  (length (remove_overlapping_rooms rooms t) <= length rooms)%nat /\
  (forall (i j : nat) (ri rj : Room),
      i <> j ->
      remove_overlapping_rooms rooms t !! i = Some ri ->
      remove_overlapping_rooms rooms t !! j = Some rj ->
      ~ t < compute_iou (bbox_pixels ri) (bbox_pixels rj)).
Proof.
  split.
  - apply submseteq_length, remove_overlapping_rooms_submseteq.
  - intros i j ri rj Hne Hi Hj Hlt.
    pose proof (remove_overlapping_rooms_compatible rooms t) as Hc.
    destruct (Nat.lt_total i j) as [Hij|[Hij|Hij]]; [| contradiction |].
    + specialize (Hc i j ri rj Hij Hi Hj).
      rewrite (compute_iou_sym (bbox_pixels rj) (bbox_pixels ri)) in Hc. lra.
    + specialize (Hc j i rj ri Hij Hj Hi). lra.
Qed.

(** C4.  Suppression is idempotent: applied to its own output with the same
    threshold, [remove_overlapping_rooms] returns that output. *)
Theorem remove_overlapping_rooms_idempotent (rooms : list Room) (t : Q) :
  remove_overlapping_rooms (remove_overlapping_rooms rooms t) t =
  remove_overlapping_rooms rooms t.
Proof.
  rewrite (remove_overlapping_rooms_fold (remove_overlapping_rooms rooms t)).
  rewrite sorted_desc_id by apply remove_overlapping_rooms_sorted.
  apply (fold_keep_step_compatible_id t (remove_overlapping_rooms rooms t) []).
  apply remove_overlapping_rooms_compatible.
Qed.

(** ** Rounding *)

(** *** Powers of two and the binary exponent *)

Lemma pow2_pos (e : Z) : 0 < 2 ^ e.
Proof. apply Qpower_0_lt. reflexivity. Qed.

Lemma pow2_succ (e : Z) : 2 ^ (e + 1) == 2 * 2 ^ e.
Proof. rewrite Qpower_plus by discriminate. change (2 ^ 1) with 2. ring. Qed.

Lemma pow2_le (a b : Z) : (a <= b)%Z -> 2 ^ a <= 2 ^ b.
Proof. intros H. apply Qpower_le_compat_l; [exact H|discriminate]. Qed.

Lemma pow2_lt (a b : Z) : (a < b)%Z -> 2 ^ a < 2 ^ b.
Proof. intros H. apply Qpower_lt_compat_l; [exact H|reflexivity]. Qed.


Lemma pow2_Z (n : Z) : (0 <= n)%Z -> inject_Z (2 ^ n) == 2 ^ n.
Proof. intros H. now rewrite Zpower_Qpower. Qed.

Lemma ilog2_spec (q : Q) :
  0 < q -> 2 ^ ilog2 q <= q /\ q < 2 ^ (ilog2 q + 1).
Proof.
  intros Hq. unfold ilog2.
  destruct q as [n d]. cbn [Qnum Qden].
  assert (Hn : (0 < n)%Z).
  { unfold Qlt in Hq. cbn in Hq. lia. }
  set (ln := Z.log2 n). set (ld := Z.log2 (Z.pos d)).
  pose proof (Z.log2_spec n Hn) as [Hn1 Hn2].
  pose proof (Z.log2_spec (Z.pos d) eq_refl) as [Hd1 Hd2].
  pose proof (Z.log2_nonneg n) as Hln. pose proof (Z.log2_nonneg (Z.pos d)) as Hld.
  fold ln in Hn1, Hn2, Hln. fold ld in Hd1, Hd2, Hld.
  rewrite Zle_Qle, pow2_Z in Hn1, Hd1 by assumption.
  rewrite Zlt_Qlt, pow2_Z in Hn2, Hd2 by lia.
  unfold Z.succ in Hn2, Hd2.
  assert (Hq' : n # d == inject_Z n / inject_Z (Z.pos d)) by apply Qmake_Qdiv.
  assert (Hdpos : 0 < inject_Z (Z.pos d)).
  { change 0 with (inject_Z 0). rewrite <- Zlt_Qlt. reflexivity. }
  set (N := inject_Z n) in *. set (D := inject_Z (Z.pos d)) in *.
  assert (Hup : n # d < 2 ^ (ln - ld + 1)).
  { rewrite Hq'. apply Qlt_shift_div_r; [exact Hdpos|].
    assert (E : 2 ^ (ln + 1) == 2 ^ (ln - ld + 1) * 2 ^ ld).
    { rewrite <- Qpower_plus by discriminate. now replace (ln - ld + 1 + ld)%Z with (ln + 1)%Z by lia. }
    pose proof (pow2_pos (ln - ld + 1)). rewrite E in Hn2.
    eapply Qlt_le_trans; [exact Hn2|]. apply Qmult_le_l; assumption. }
  assert (Hlo : 2 ^ (ln - ld - 1) <= n # d).
  { rewrite Hq'. apply Qle_shift_div_l; [exact Hdpos|].
    assert (E : 2 ^ ln == 2 ^ (ln - ld - 1) * 2 ^ (ld + 1)).
    { rewrite <- Qpower_plus by discriminate. now replace (ln - ld - 1 + (ld + 1))%Z with ln by lia. }
    pose proof (pow2_pos (ln - ld - 1)). rewrite E in Hn1.
    eapply Qle_trans; [|exact Hn1]. apply Qmult_le_l; [assumption|]. now apply Qlt_le_weak. }
  destruct (Qle_bool (2 ^ (ln - ld)) (n # d)) eqn:E.
  - apply Qle_bool_iff in E. split; assumption.
  - assert (E' : n # d < 2 ^ (ln - ld)).
    { apply Qnot_le_lt. intros H. apply Qle_bool_iff in H. congruence. }
    split; [exact Hlo|]. now replace (ln - ld - 1 + 1)%Z with (ln - ld)%Z by lia.
Qed.

Lemma ilog2_unique (q : Q) (a : Z) :
  2 ^ a <= q -> q < 2 ^ (a + 1) -> ilog2 q = a.
Proof.
  intros H1 H2.
  assert (Hq : 0 < q) by (pose proof (pow2_pos a); lra).
  destruct (ilog2_spec q Hq) as [H3 H4].
  destruct (Z.lt_trichotomy (ilog2 q) a) as [H|[H|H]]; [|exact H|].
  - assert (2 ^ (ilog2 q + 1) <= 2 ^ a) by (apply pow2_le; lia). lra.
  - assert (2 ^ (a + 1) <= 2 ^ ilog2 q) by (apply pow2_le; lia). lra.
Qed.

Lemma ilog2_comp (q q' : Q) : 0 < q -> q == q' -> ilog2 q = ilog2 q'.
Proof.
  intros Hq E. symmetry. destruct (ilog2_spec q Hq).
  apply ilog2_unique; rewrite <- E; assumption.
Qed.

Lemma ilog2_mono (x y : Q) : 0 < x -> x <= y -> (ilog2 x <= ilog2 y)%Z.
Proof.
  intros Hx Hxy.
  destruct (ilog2_spec x Hx) as [H1 H2].
  destruct (ilog2_spec y ltac:(lra)) as [H3 H4].
  destruct (Z_le_gt_dec (ilog2 x) (ilog2 y)) as [H|H]; [exact H|].
  assert (2 ^ (ilog2 y + 1) <= 2 ^ ilog2 x) by (apply pow2_le; lia). lra.
Qed.

(** *** Rounding to the nearest integer *)
Lemma round_half_even_near (y : Q) :
  Qabs (inject_Z (round_half_even y) - y) <= 1 # 2.
Proof.
  unfold round_half_even.
  pose proof (Qfloor_le y) as Hlo. pose proof (Qlt_floor y) as Hhi.
  rewrite inject_Z_plus in Hhi. change (inject_Z 1) with 1 in Hhi.
  assert (Hup : Qabs (inject_Z (Qfloor y + 1) - y) <= 1 # 2 <->
                1 # 2 <= y - inject_Z (Qfloor y)).
  { rewrite inject_Z_plus. change (inject_Z 1) with 1.
    split; intros H.
    - apply Qabs_Qle_condition in H. lra.
    - apply Qabs_Qle_condition. lra. }
  assert (Hdown : Qabs (inject_Z (Qfloor y) - y) <= 1 # 2 <->
                  y - inject_Z (Qfloor y) <= 1 # 2).
  { split; intros H.
    - apply Qabs_Qle_condition in H. lra.
    - apply Qabs_Qle_condition. lra. }
  destruct (Qcompare_spec (y - inject_Z (Qfloor y)) (1 # 2)) as [E|E|E].
  - destruct (Z.even (Qfloor y)); [apply Hdown|apply Hup]; lra.
  - apply Hdown. lra.
  - apply Hup. lra.
Qed.

Lemma round_half_even_bounds (y : Q) :
  (Qfloor y <= round_half_even y <= Qfloor y + 1)%Z.
Proof.
  unfold round_half_even.
  destruct (Qcompare (y - inject_Z (Qfloor y)) (1 # 2));
    [destruct (Z.even (Qfloor y))| |]; lia.
Qed.

Lemma round_half_even_mono (x y : Q) :
  x <= y -> (round_half_even x <= round_half_even y)%Z.
Proof.
  intros H. pose proof (Qfloor_resp_le x y H) as Hf.
  destruct (Z.eq_dec (Qfloor x) (Qfloor y)) as [E|NE].
  - unfold round_half_even. rewrite E.
    destruct (Qcompare_spec (x - inject_Z (Qfloor y)) (1 # 2)) as [Ex|Ex|Ex];
      destruct (Qcompare_spec (y - inject_Z (Qfloor y)) (1 # 2)) as [Ey|Ey|Ey];
      try (destruct (Z.even (Qfloor y))); try lia; lra.
  - pose proof (round_half_even_bounds x). pose proof (round_half_even_bounds y).
    lia.
Qed.

Lemma round_half_even_comp (x y : Q) :
  x == y -> round_half_even x = round_half_even y.
Proof.
  intros E. apply Z.le_antisymm; apply round_half_even_mono; lra.
Qed.

Lemma round_half_even_Z (k : Z) : round_half_even (inject_Z k) = k.
Proof.
  unfold round_half_even. rewrite Qfloor_Z.
  destruct (Qcompare_spec (inject_Z k - inject_Z k) (1 # 2)) as [E|E|E];
    [lra|reflexivity|lra].
Qed.

Lemma round_half_even_nearest (y : Q) : nearest_even (round_half_even y) y.
Proof.
  split; [apply round_half_even_near|].
  unfold round_half_even.
  pose proof (Qfloor_le y) as Hlo. pose proof (Qlt_floor y) as Hhi.
  rewrite inject_Z_plus in Hhi. change (inject_Z 1) with 1 in Hhi.
  destruct (Qcompare_spec (y - inject_Z (Qfloor y)) (1 # 2)) as [E|E|E].
  - intros _. destruct (Z.even (Qfloor y)) eqn:Ev; [exact Ev|].
    rewrite Z.add_1_r, Z.even_succ, <- Z.negb_even, Ev. reflexivity.
  - intros H. exfalso. revert H. apply Qabs_case; intros; lra.
  - rewrite inject_Z_plus. change (inject_Z 1) with 1.
    intros H. exfalso. revert H. apply Qabs_case; intros; lra.
Qed.

Lemma nearest_even_unique (k k' : Z) (y : Q) :
  nearest_even k y -> nearest_even k' y -> k = k'.
Proof.
  assert (Hstep : forall a b : Z, nearest_even a y -> nearest_even b y ->
                                  b <> (a + 1)%Z).
  { intros a b [Ha Ea] [Hb Eb] ->.
    rewrite inject_Z_plus in Hb, Eb. change (inject_Z 1) with 1 in Hb, Eb.
    apply Qabs_Qle_condition in Ha, Hb.
    assert (Ey : y == inject_Z a + (1 # 2)) by lra.
    assert (Hev : Z.even a = true).
    { apply Ea. rewrite Qabs_neg by lra. lra. }
    assert (Hev' : Z.even (a + 1) = true).
    { apply Eb. rewrite Qabs_pos by lra. lra. }
    rewrite Z.add_1_r, Z.even_succ, <- Z.negb_even, Hev in Hev'.
    discriminate. }
  intros Hk Hk'.
  pose proof (Hstep k k' Hk Hk') as N1. pose proof (Hstep k' k Hk' Hk) as N2.
  destruct Hk as [H1 _], Hk' as [H2 _].
  apply Qabs_Qle_condition in H1, H2.
  assert (Hd : (k' + - k <= 1 /\ k + - k' <= 1)%Z).
  { split; rewrite Zle_Qle, inject_Z_plus, inject_Z_opp;
      change (inject_Z 1) with 1; lra. }
  lia.
Qed.

(** *** Rounding to binary64 *)
Lemma pow2_52 : 2 ^ 52 == 4503599627370496.
Proof. reflexivity. Qed.

Lemma fl_exponent (q : Q) :
  ~ q == 0 ->
  4503599627370496 * 2 ^ (ilog2 (Qabs q) - 52) <= Qabs q /\
  Qabs q < 2 * 4503599627370496 * 2 ^ (ilog2 (Qabs q) - 52).
Proof.
  intros Hq.
  assert (Hpos : 0 < Qabs q).
  { pose proof (Qabs_nonneg q). destruct (Qeq_dec (Qabs q) 0) as [E|E]; [|lra].
    exfalso. apply Hq. revert E. apply Qabs_case; intros; lra. }
  destruct (ilog2_spec (Qabs q) Hpos) as [H1 H2].
  set (l := ilog2 (Qabs q)) in *.
  assert (E1 : 2 ^ l == 4503599627370496 * 2 ^ (l - 52)).
  { rewrite <- pow2_52, <- Qpower_plus by discriminate.
    now replace (52 + (l - 52))%Z with l by lia. }
  assert (E2 : 2 ^ (l + 1) == 2 * 4503599627370496 * 2 ^ (l - 52)).
  { rewrite pow2_succ, E1. ring. }
  rewrite E1 in H1. rewrite E2 in H2. split; assumption.
Qed.

Lemma fl_unfold (q : Q) :
  ~ q == 0 ->
  fl q = inject_Z (round_half_even (q / 2 ^ (ilog2 (Qabs q) - 52)))
         * 2 ^ (ilog2 (Qabs q) - 52).
Proof.
  intros Hq. unfold fl. destruct (Qeq_bool q 0) eqn:E; [|reflexivity].
  apply Qeq_bool_iff in E. contradiction.
Qed.

Lemma fl_0 (q : Q) : q == 0 -> fl q = 0.
Proof. intros E. unfold fl. apply Qeq_bool_iff in E. now rewrite E. Qed.

Lemma fl_error (q : Q) : Qabs (fl q - q) <= half_ulp * Qabs q.
Proof.
  destruct (Qeq_dec q 0) as [E|Hq].
  - rewrite (fl_0 q E), E. vm_compute. discriminate.
  - rewrite (fl_unfold q Hq).
    destruct (fl_exponent q Hq) as [H1 _].
    pose proof (pow2_pos (ilog2 (Qabs q) - 52)) as Hs.
    set (s := 2 ^ (ilog2 (Qabs q) - 52)) in *.
    pose proof (round_half_even_near (q / s)) as Hr.
    set (m := inject_Z (round_half_even (q / s))) in *.
    assert (Eq : q == q / s * s) by (field; lra).
    set (t := q / s) in *.
    apply Qabs_Qle_condition in Hr.
    assert (A1 : m * s - t * s <= s * (1 # 2)) by nra.
    assert (A2 : - (s * (1 # 2)) <= m * s - t * s) by nra.
    assert (E : m * s - q == m * s - t * s) by (rewrite Eq at 1; reflexivity).
    rewrite E. apply Qabs_Qle_condition. unfold half_ulp.
    split; lra.
Qed.

Lemma round_half_even_opp (y : Q) :
  round_half_even (- y) = (- round_half_even y)%Z.
Proof.
  apply (nearest_even_unique _ _ (- y)); [apply round_half_even_nearest|].
  destruct (round_half_even_nearest y) as [H E].
  assert (Eq : inject_Z (- round_half_even y) - - y
               == - (inject_Z (round_half_even y) - y)).
  { rewrite inject_Z_opp. ring. }
  split.
  - now rewrite Eq, Qabs_opp.
  - rewrite Eq, Qabs_opp, Z.even_opp. exact E.
Qed.

Lemma Qabs_zero (q : Q) : Qabs q == 0 -> q == 0.
Proof. apply Qabs_case; intros; lra. Qed.

#[local] Instance fl_comp : Proper (Qeq ==> Qeq) fl.
Proof.
  intros q q' E.
  destruct (Qeq_dec q 0) as [E0|Hq].
  - rewrite (fl_0 q E0), (fl_0 q'); [reflexivity|]. lra.
  - assert (Hq' : ~ q' == 0) by (intros H; apply Hq; lra).
    rewrite (fl_unfold q Hq), (fl_unfold q' Hq').
    assert (Hpos : 0 < Qabs q).
    { pose proof (Qabs_nonneg q).
      destruct (Qeq_dec (Qabs q) 0) as [Z|Z]; [|lra].
      apply Qabs_zero in Z. contradiction. }
    assert (El : ilog2 (Qabs q) = ilog2 (Qabs q')).
    { apply ilog2_comp; [exact Hpos|]. apply Qabs_wd. exact E. }
    rewrite <- El.
    assert (Er : round_half_even (q / 2 ^ (ilog2 (Qabs q) - 52))
                 = round_half_even (q' / 2 ^ (ilog2 (Qabs q) - 52))).
    { apply round_half_even_comp. apply Qdiv_comp; [exact E|reflexivity]. }
    rewrite Er. reflexivity.
Qed.

Lemma fl_opp (q : Q) : fl (- q) == - fl q.
Proof.
  destruct (Qeq_dec q 0) as [E0|Hq].
  - rewrite (fl_0 q E0), (fl_0 (- q)); [reflexivity|]. lra.
  - assert (Hq' : ~ - q == 0) by (intros H; apply Hq; lra).
    rewrite (fl_unfold q Hq), (fl_unfold (- q) Hq').
    assert (Hpos : 0 < Qabs q).
    { pose proof (Qabs_nonneg q).
      destruct (Qeq_dec (Qabs q) 0) as [Z|Z]; [|lra].
      apply Qabs_zero in Z. contradiction. }
    assert (El : ilog2 (Qabs (- q)) = ilog2 (Qabs q)).
    { symmetry. apply ilog2_comp; [exact Hpos|]. symmetry. apply Qabs_opp. }
    rewrite El.
    pose proof (pow2_pos (ilog2 (Qabs q) - 52)) as Hs.
    set (s := 2 ^ (ilog2 (Qabs q) - 52)) in *.
    assert (Er : round_half_even (- q / s) = (- round_half_even (q / s))%Z).
    { rewrite <- round_half_even_opp. apply round_half_even_comp.
      field. lra. }
    rewrite Er, inject_Z_opp. ring.
Qed.

Lemma fl_pos_bounds (q : Q) :
  0 < q ->
  4503599627370496 * 2 ^ (ilog2 q - 52) <= fl q /\
  fl q <= 2 * 4503599627370496 * 2 ^ (ilog2 q - 52).
Proof.
  intros Hq.
  assert (Hne : ~ q == 0) by lra.
  assert (Ea : Qabs q == q) by (apply Qabs_pos; lra).
  assert (El : ilog2 (Qabs q) = ilog2 q).
  { apply ilog2_comp; [lra|exact Ea]. }
  destruct (fl_exponent q Hne) as [H1 H2].
  rewrite (fl_unfold q Hne). rewrite El in *. rewrite Ea in H1, H2.
  pose proof (pow2_pos (ilog2 q - 52)) as Hs.
  set (s := 2 ^ (ilog2 q - 52)) in *.
  assert (Ht1 : inject_Z 4503599627370496 <= q / s).
  { apply Qle_shift_div_l; [exact Hs|]. exact H1. }
  assert (Ht2 : q / s <= inject_Z 9007199254740992).
  { apply Qle_shift_div_r; [exact Hs|].
    change (inject_Z 9007199254740992) with (2 * 4503599627370496). lra. }
  apply round_half_even_mono in Ht1, Ht2.
  rewrite round_half_even_Z in Ht1, Ht2.
  rewrite Zle_Qle in Ht1, Ht2.
  change (inject_Z 4503599627370496) with 4503599627370496 in Ht1.
  change (inject_Z 9007199254740992) with (2 * 4503599627370496) in Ht2.
  set (m := inject_Z (round_half_even (q / s))) in *.
  split; nra.
Qed.

Lemma fl_nonneg (q : Q) : 0 <= q -> 0 <= fl q.
Proof.
  intros H. destruct (Qeq_dec q 0) as [E|Hq].
  - rewrite (fl_0 q E). lra.
  - destruct (fl_pos_bounds q ltac:(lra)) as [H1 _].
    pose proof (pow2_pos (ilog2 q - 52)). nra.
Qed.

Lemma fl_mono_pos (x y : Q) : 0 < x -> x <= y -> fl x <= fl y.
Proof.
  intros Hx Hxy.
  assert (Hy : 0 < y) by lra.
  pose proof (ilog2_mono x y Hx Hxy) as Hl.
  destruct (Z.eq_dec (ilog2 x) (ilog2 y)) as [E|NE].
  - assert (Hnx : ~ x == 0) by lra. assert (Hny : ~ y == 0) by lra.
    rewrite (fl_unfold x Hnx), (fl_unfold y Hny).
    assert (Ex : ilog2 (Qabs x) = ilog2 x)
      by (apply ilog2_comp; [rewrite Qabs_pos; lra|apply Qabs_pos; lra]).
    assert (Ey : ilog2 (Qabs y) = ilog2 y)
      by (apply ilog2_comp; [rewrite Qabs_pos; lra|apply Qabs_pos; lra]).
    rewrite Ex, Ey, E.
    pose proof (pow2_pos (ilog2 y - 52)) as Hs.
    set (s := 2 ^ (ilog2 y - 52)) in *.
    assert (Hr : (round_half_even (x / s) <= round_half_even (y / s))%Z).
    { apply round_half_even_mono. unfold Qdiv.
      apply Qmult_le_compat_r; [exact Hxy|].
      apply Qlt_le_weak. now apply Qinv_lt_0_compat. }
    rewrite Zle_Qle in Hr. nra.
  - destruct (fl_pos_bounds x Hx) as [_ Hux].
    destruct (fl_pos_bounds y Hy) as [Hly _].
    assert (Hp : 2 * 2 ^ (ilog2 x - 52) <= 2 ^ (ilog2 y - 52)).
    { rewrite <- pow2_succ. apply pow2_le. lia. }
    lra.
Qed.

Lemma fl_mono (x y : Q) : x <= y -> fl x <= fl y.
Proof.
  intros Hxy.
  destruct (Qlt_le_dec 0 x) as [Hx|Hx]; [now apply fl_mono_pos|].
  destruct (Qlt_le_dec y 0) as [Hy|Hy].
  - assert (H : fl (- y) <= fl (- x)) by (apply fl_mono_pos; lra).
    rewrite !fl_opp in H. lra.
  - assert (H1 : 0 <= fl y) by now apply fl_nonneg.
    assert (H2 : 0 <= fl (- x)) by (apply fl_nonneg; lra).
    rewrite fl_opp in H2. lra.
Qed.

Lemma fl_1 : fl 1 == 1.
Proof. reflexivity. Qed.
Lemma fl_1000 : fl 1000 == 1000.
Proof. reflexivity. Qed.

(** *** Python's [round] *)

Lemma scale_pos (ndigits : nat) : 0 < inject_Z (10 ^ Z.of_nat ndigits).
Proof.
  change 0 with (inject_Z 0). rewrite <- Zlt_Qlt.
  apply Z.pow_pos_nonneg; lia.
Qed.



Lemma pyround_mono (x y : Q) (ndigits : nat) :
  x <= y -> pyround x ndigits <= pyround y ndigits.
Proof.
  intros H. unfold pyround. apply fl_mono.
  pose proof (scale_pos ndigits) as Hs.
  set (s := inject_Z (10 ^ Z.of_nat ndigits)) in *.
  assert (Hr : (round_half_even (x * s) <= round_half_even (y * s))%Z)
    by (apply round_half_even_mono; nra).
  rewrite Zle_Qle in Hr.
  unfold Qdiv. apply Qmult_le_compat_r; [exact Hr|].
  apply Qlt_le_weak. now apply Qinv_lt_0_compat.
Qed.

(** *** Normalisation *)

Lemma dim_pos (d : positive) : 0 < inject_Z (Z.pos d).
Proof. change 0 with (inject_Z 0). rewrite <- Zlt_Qlt. reflexivity. Qed.

Lemma scaled_le (p q : Q) (d : positive) :
  p <= q -> scaled p d <= scaled q d.
Proof.
  intros H. unfold scaled. apply fl_mono.
  apply Qmult_le_compat_r; [|discriminate].
  apply fl_mono. unfold Qdiv. apply Qmult_le_compat_r; [exact H|].
  apply Qlt_le_weak, Qinv_lt_0_compat, dim_pos.
Qed.

(** Normalisation keeps the order of the coordinates. *)
Lemma normalize_le (p q : Q) (d : positive) :
  p <= q -> normalize p d <= normalize q d.
Proof. intros H. unfold normalize. now apply pyround_mono, scaled_le. Qed.

Lemma normalize_0 (d : positive) : normalize 0 d == 0.
Proof.
  unfold normalize, scaled, pyround.
  assert (E1 : fl (0 / inject_Z (Z.pos d)) == 0).
  { rewrite (fl_0 (0 / inject_Z (Z.pos d))); [reflexivity|].
    unfold Qdiv. ring. }
  assert (E2 : fl (fl (0 / inject_Z (Z.pos d)) * 1000) == 0).
  { rewrite E1. reflexivity. }
  rewrite (round_half_even_comp _ (inject_Z 0)).
  - rewrite round_half_even_Z. reflexivity.
  - rewrite E2. reflexivity.
Qed.

Lemma normalize_full (d : positive) : normalize (inject_Z (Z.pos d)) d == 1000.
Proof.
  unfold normalize, scaled, pyround.
  pose proof (dim_pos d) as Hd.
  assert (E1 : fl (inject_Z (Z.pos d) / inject_Z (Z.pos d)) == 1).
  { assert (E : inject_Z (Z.pos d) / inject_Z (Z.pos d) == 1) by (field; lra).
    rewrite E. reflexivity. }
  assert (E2 : fl (fl (inject_Z (Z.pos d) / inject_Z (Z.pos d)) * 1000) == 1000).
  { rewrite E1. reflexivity. }
  rewrite (round_half_even_comp _ (inject_Z 10000)).
  - rewrite round_half_even_Z. reflexivity.
  - rewrite E2. reflexivity.
Qed.

(** A coordinate inside the image is normalised into 0..1000. *)
Lemma normalize_bounds (p : Q) (d : positive) :
  0 <= p -> p <= inject_Z (Z.pos d) -> 0 <= normalize p d <= 1000.
Proof.
  intros H0 Hd. split.
  - rewrite <- (normalize_0 d). now apply normalize_le.
  - rewrite <- (normalize_full d). now apply normalize_le.
Qed.

(** The normalised value is within 0.05, and three roundings of the float
    arithmetic, of the exact quotient. *)
Lemma normalize_near (p : Q) (d : positive) :
  Qabs (normalize p d - 1000 * (p / inject_Z (Z.pos d)))
  <= (5 # 100)
     + (1 # 1125899906842624) * (1000 * Qabs (p / inject_Z (Z.pos d)) + 1).
Proof.
  unfold normalize, scaled, pyround.
  change (inject_Z (10 ^ Z.of_nat 1)) with 10.
  set (a := p / inject_Z (Z.pos d)).
  pose proof (fl_error a) as F1.
  set (y1 := fl a) in *.
  pose proof (fl_error (y1 * 1000)) as F2.
  set (y2 := fl (y1 * 1000)) in *.
  pose proof (round_half_even_near (y2 * 10)) as F3.
  set (k := inject_Z (round_half_even (y2 * 10))) in *.
  pose proof (fl_error (k / 10)) as F4.
  set (n := fl (k / 10)) in *.
  assert (E10 : k / 10 == k * (1 # 10)) by (field; discriminate).
  rewrite E10 in F4.
  pose proof (Qabs_nonneg a) as HA.
  pose proof (Qle_Qabs a) as HA1.
  pose proof (Qle_Qabs (- a)) as HA2. rewrite Qabs_opp in HA2.
  set (A := Qabs a) in *.
  unfold half_ulp in *.
  apply Qabs_Qle_condition in F1, F3.
  assert (HY1 : Qabs (y1 * 1000) <= 1000 * A + (1 # 1000000000000) * A).
  { apply Qabs_Qle_condition. lra. }
  set (Y1 := Qabs (y1 * 1000)) in *.
  apply Qabs_Qle_condition in F2.
  assert (HK : Qabs (k * (1 # 10)) <= 1000 * A + (1 # 100000000000) * A + (1 # 20)).
  { apply Qabs_Qle_condition. lra. }
  set (K := Qabs (k * (1 # 10))) in *.
  apply Qabs_Qle_condition in F4.
  apply Qabs_Qle_condition. lra.
Qed.


(** C7, as stated, fails: for a coordinate 327 in a dimension 800 the
    quotient 408.75 is a tie, the normalised value is the float nearest to
    408.8, just above 408.8, and scaled back by 800 / 1000 it is further than
    800 / 1000 * 0.05 from 327. *)
Lemma normalize_round_trip_tie :
  normalize 327 800 == fl (4088 # 10) /\
  ~ Qabs (normalize 327 800 * (inject_Z 800 / 1000) - 327)
    <= inject_Z 800 / 1000 * (5 # 100).
Proof.
  split; [reflexivity|]. apply Qlt_not_le. reflexivity.
Qed.

(** C7, amended.  Normalisation round-trips up to the rounding of the float
    arithmetic: the normalised value of a pixel coordinate [p] for a
    dimension [d], scaled back by [d / 1000], is within
    [d / 1000 * 0.05 + 2^-50 * (|p| + d / 1000)] of [p]. *)
Theorem normalize_round_trip (p : Q) (d : positive) :
  Qabs (normalize p d * (inject_Z (Z.pos d) / 1000) - p)
  <= inject_Z (Z.pos d) / 1000 * (5 # 100)
     + (1 # 1125899906842624) * (Qabs p + inject_Z (Z.pos d) / 1000).
Proof.
  pose proof (dim_pos d) as Hd.
  pose proof (normalize_near p d) as H.
  set (D := inject_Z (Z.pos d)) in *.
  set (n := normalize p d) in *.
  assert (HD : 0 < D / 1000) by (apply Qlt_shift_div_l; lra).
  assert (E : n * (D / 1000) - p == (n - 1000 * (p / D)) * (D / 1000))
    by (field; lra).
  rewrite E, Qabs_Qmult, (Qabs_pos (D / 1000)) by lra.
  assert (Ep : Qabs p == Qabs (p / D) * D).
  { assert (Ep' : p == p / D * D) by (field; lra).
    rewrite Ep' at 1. rewrite Qabs_Qmult, (Qabs_pos D) by lra. reflexivity. }
  rewrite Ep.
  set (A := Qabs (p / D)) in *. set (B := Qabs (n - 1000 * (p / D))) in *.
  assert (Hm : B * (D / 1000)
               <= ((5 # 100) + (1 # 1125899906842624) * (1000 * A + 1))
                  * (D / 1000)).
  { apply Qmult_le_compat_r; lra. }
  eapply Qle_trans; [exact Hm|].
  apply Qle_lteq. right. field.
Qed.
(** ** The handler of [/detect] *)

Section ServiceProperties.
Context {model image mask : Type}.
Context (imdecode : list byte -> option image).
Context (shape : image -> positive * positive).
Context (forward : model -> image -> list (Detection mask)).
Context (mask_polygon : mask -> list (list Z)).
Context (uuid4_hex : nat -> string).

Lemma make_room_normalized (w h : positive) (n : nat) (d : Detection mask) :
  normalized w h (make_room mask mask_polygon uuid4_hex w h n d).
Proof. reflexivity. Qed.

Lemma collect_rooms_normalized (threshold : Q) (w h : positive)
    (outputs : list (Detection mask)) :
  Forall (normalized w h)
    (collect_rooms mask mask_polygon uuid4_hex threshold w h outputs).
Proof.
  unfold collect_rooms.
  assert (H : forall acc, Forall (normalized w h) acc ->
            Forall (normalized w h)
              (fold_left (collect_step mask mask_polygon uuid4_hex threshold w h)
                 outputs acc)).
  { induction outputs as [|d ds IH]; intros acc Hacc; cbn [fold_left].
    - exact Hacc.
    - apply IH. unfold collect_step.
      destruct (Qltb (score d) threshold); [exact Hacc|].
      apply Forall_app. split; [exact Hacc|].
      constructor; [apply make_room_normalized|constructor]. }
  apply H. constructor.
Qed.

Lemma reassign_ids_lookup (l : list Room) (i : nat) (r : Room) :
  reassign_ids l !! i = Some r ->
  exists r0, l !! i = Some r0 /\ r = set_id ("room_" +:+ fmt_03d (i + 1)) r0.
Proof.
  unfold reassign_ids. rewrite list_lookup_imap.
  destruct (l !! i) as [r0|]; cbn; [|discriminate].
  intros [= <-]. now exists r0.
Qed.

(** The successful run of the handler, spelled out. *)
Lemma detect_rooms_ok (MODEL : option model) (contents : list byte)
    (threshold overlap_threshold : Q) (res : DetectionResult) :
  detect_rooms model image mask imdecode shape forward mask_polygon uuid4_hex
    MODEL contents threshold overlap_threshold = inr res ->
  exists m img,
    MODEL = Some m /\
    imdecode contents = Some img /\
    image_size res = ((shape img).2, (shape img).1) /\
    total_rooms res = length (rooms res) /\
    rooms res =
      reassign_ids
        (remove_overlapping_rooms
           (collect_rooms mask mask_polygon uuid4_hex threshold
              (shape img).2 (shape img).1 (forward m img))
           overlap_threshold).
Proof.
  unfold detect_rooms.
  destruct MODEL as [m|]; [|discriminate].
  destruct contents as [|b contents]; [discriminate|].
  destruct (imdecode (b :: contents)) as [img|]; [|discriminate].
  intros H. exists m, img. split; [reflexivity|]. split; [reflexivity|].
  destruct (shape img) as [h w]. injection H as <-. cbn.
  repeat split.
Qed.



(** C8, amended.  [/detect] fails with status 503 whenever the model is not
    loaded, and with status 400 whenever the model is loaded, the upload is
    not empty and no codec decodes it. *)
Theorem detect_rooms_failures (MODEL : option model) (contents : list byte)
    (threshold overlap_threshold : Q) :
  (MODEL = None ->
   exists d,
     detect_rooms model image mask imdecode shape forward mask_polygon
       uuid4_hex MODEL contents threshold overlap_threshold
     = inl {| status_code := 503; detail := d |}) /\
  (MODEL <> None -> contents <> [] -> imdecode contents = None ->
   exists d,
     detect_rooms model image mask imdecode shape forward mask_polygon
       uuid4_hex MODEL contents threshold overlap_threshold
     = inl {| status_code := 400; detail := d |}).
Proof.
  split.
  - intros ->. eexists. reflexivity.
  - intros Hm Hne Hdec. destruct MODEL as [m|]; [|contradiction].
    destruct contents as [|b contents]; [contradiction|].
    cbn. rewrite Hdec. eexists. reflexivity.
Qed.

End ServiceProperties.

(** ** The handler on the sample run *)

Example sample_detect_ids :
  id <$> rooms sample_result = ["room_001"; "room_002"]%string.
Proof. vm_compute. reflexivity. Qed.

Example sample_detect_pixels :
  bbox_pixels <$> rooms sample_result =
  [ {| x1 := 200; y1 := 200; x2 := 300; y2 := 300 |};
    {| x1 := 10; y1 := 10; x2 := 110; y2 := 110 |} ].
Proof. vm_compute. reflexivity. Qed.

Example sample_detect_total : total_rooms sample_result = 2%nat.
Proof. vm_compute. reflexivity. Qed.

(** 312.5, 416.7, 468.8 and 625.0, as floats. *)
Example sample_detect_box :
  Forall2 Qeq (bounding_box sample_first)
    [fl (3125 # 10); fl (4167 # 10); fl (4688 # 10); fl 625].
Proof. vm_compute. repeat constructor. Qed.

Example compute_iou_a_b : compute_iou box_a box_b == 1 # 7.
Proof. reflexivity. Qed.

Example compute_iou_a_c : compute_iou box_a box_c = 0.
Proof. reflexivity. Qed.

Example sorted_desc_sample :
  id <$> sorted_desc sample_candidates = ["second"; "first"; "third"]%string.
Proof. reflexivity. Qed.

Example remove_overlapping_rooms_default :
  id <$> remove_overlapping_rooms sample_candidates (3 # 10)
  = ["second"; "first"; "third"]%string.
Proof. reflexivity. Qed.

Example remove_overlapping_rooms_strict :
  id <$> remove_overlapping_rooms sample_candidates (1 # 10)
  = ["second"; "first"]%string.
Proof. reflexivity. Qed.

(** An IoU equal to the threshold does not reject. *)
Example remove_overlapping_rooms_at_threshold :
  id <$> remove_overlapping_rooms sample_candidates (1 # 7)
  = ["second"; "first"; "third"]%string.
Proof. reflexivity. Qed.

(** C8, as stated, fails at two uploads that are not images.  When the
    model is not loaded, the answer to a text that no codec decodes is 503
    and not 400.  When the model is loaded, the decoder raises on the empty
    upload and the answer is 500 and not 400. *)
Lemma detect_rooms_unloaded_undecodable :
  sample_imdecode sample_text = None /\
  detect_rooms unit unit unit sample_imdecode sample_shape sample_forward
    sample_polygon sample_uuid None sample_text (7 # 10) (3 # 10)
  = inl {| status_code := 503;
           detail := "Model not loaded. Place maskrcnn_best.pth in backend directory." |} /\
  detect_rooms unit unit unit sample_imdecode sample_shape sample_forward
    sample_polygon sample_uuid (Some tt) [] (7 # 10) (3 # 10)
  = inl {| status_code := 500; detail := "Internal Server Error" |} /\
  ~ (forall (MODEL : option unit) (contents : list byte),
       (contents = [] \/ sample_imdecode contents = None) ->
       exists d,
         detect_rooms unit unit unit sample_imdecode sample_shape
           sample_forward sample_polygon sample_uuid MODEL contents
           (7 # 10) (3 # 10)
         = inl {| status_code := 400; detail := d |}).
Proof.
  split; [reflexivity|]. split; [reflexivity|]. split; [reflexivity|].
  intros H. destruct (H None sample_text (or_intror eq_refl)) as [d Hd].
  discriminate Hd.
Qed.

(** ** The theorems at concrete inputs *)

Lemma compute_iou_intersection_over_union_witness :
  0 < union_area box_a box_b /\
  compute_iou box_a box_b == intersection_area box_a box_b / union_area box_a box_b.
Proof.
  split; [reflexivity|].
  apply (proj1 (compute_iou_intersection_over_union box_a box_b)).
  reflexivity.
Defined.

Lemma compute_iou_self_and_disjoint_witness :
  compute_iou box_a box_a == 1 /\ compute_iou box_a box_c = 0.
Proof.
  destruct (compute_iou_self_and_disjoint box_a box_a box_c) as [H1 H2].
  split; [apply H1; reflexivity | apply H2; reflexivity].
Defined.

Lemma compute_iou_symmetric_bounded_witness :
  well_formed box_a /\ well_formed box_b /\
  0 <= compute_iou box_a box_b <= 1.
Proof.
  assert (Ha : well_formed box_a) by (split; discriminate).
  assert (Hb : well_formed box_b) by (split; discriminate).
  split; [exact Ha|]. split; [exact Hb|].
  exact (proj2 (compute_iou_symmetric_bounded box_a box_b) Ha Hb).
Defined.



Lemma detect_rooms_failures_witness :
  (exists d, sample_detect None sample_png
             = inl {| status_code := 503; detail := d |}) /\
  (exists d, sample_detect (Some tt) sample_text
             = inl {| status_code := 400; detail := d |}).
Proof.
  split.
  - apply (proj1 (detect_rooms_failures sample_imdecode sample_shape
                    sample_forward sample_polygon sample_uuid
                    None sample_png (7 # 10) (3 # 10))).
    reflexivity.
  - apply (proj2 (detect_rooms_failures sample_imdecode sample_shape
                    sample_forward sample_polygon sample_uuid
                    (Some tt) sample_text (7 # 10) (3 # 10))).
    + discriminate.
    + discriminate.
    + reflexivity.
Defined.

(** * Further properties of the code *)

(** ** More on [compute_iou] *)

(** X1.  The IoU is positive exactly when the two boxes have a common part
    of positive width and height, and it is 0 otherwise. *)
Theorem compute_iou_positive_iff_overlap (a b : BoundingBox) :
  (0 < compute_iou a b <->
   0 < overlap_width a b /\ 0 < overlap_height a b) /\
  (~ 0 < compute_iou a b -> compute_iou a b = 0).
Proof.
  assert (Hpos : 0 < overlap_width a b -> 0 < overlap_height a b ->
                 0 < compute_iou a b).
  { intros Hw Hh. rewrite (compute_iou_overlap a b Hw Hh).
    destruct (overlap_union_bounds a b Hw Hh) as [Hi Hu].
    apply Qlt_shift_div_l; lra. }
  split.
  - split.
    + intros H.
      destruct (Qlt_le_dec 0 (overlap_width a b)) as [Hw|Hw];
        [destruct (Qlt_le_dec 0 (overlap_height a b)) as [Hh|Hh]|].
      * now split.
      * rewrite (compute_iou_no_overlap a b) in H by now right. lra.
      * rewrite (compute_iou_no_overlap a b) in H by now left. lra.
    + intros [Hw Hh]. now apply Hpos.
  - intros H. apply compute_iou_no_overlap.
    destruct (Qlt_le_dec 0 (overlap_width a b)) as [Hw|Hw]; [|now left].
    destruct (Qlt_le_dec 0 (overlap_height a b)) as [Hh|Hh]; [|now right].
    exfalso. apply H. now apply Hpos.
Qed.


(** ** More on [remove_overlapping_rooms] *)

Lemma fold_keep_step_prefix (t : Q) (cs kept : list Room) (k : Room) :
  k ∈ kept -> k ∈ fold_left (keep_step t) cs kept.
Proof.
  intros Hk. destruct (fold_keep_step_sublist t cs kept) as (p & -> & _).
  apply elem_of_app. now left.
Qed.

(** X4.  On a non-empty input the output is not empty: it starts with the
    first room of the sorted candidates, and no candidate is more confident
    than that room. *)
Theorem remove_overlapping_rooms_keeps_best (rooms : list Room) (t : Q) :
  rooms <> [] ->
  exists best rest,
    remove_overlapping_rooms rooms t = best :: rest /\
    head (sorted_desc rooms) = Some best /\
    (forall r, r ∈ rooms -> confidence r <= confidence best).
Proof.
  intros Hne. rewrite remove_overlapping_rooms_fold.
  pose proof (sorted_desc_perm rooms) as Hp.
  pose proof (sorted_desc_sorted rooms) as Hs.
  destruct (sorted_desc rooms) as [|best s] eqn:E.
  { apply Permutation_nil_r in Hp. contradiction. }
  cbn [fold_left]. unfold keep_step at 2. cbn [overlaps_kept app].
  destruct (fold_keep_step_sublist t s [best]) as (p & -> & _).
  exists best, p. split; [reflexivity|]. split; [reflexivity|].
  intros r Hr. rewrite Hp in Hr.
  apply StronglySorted_inv in Hs as [_ Hall].
  apply elem_of_cons in Hr as [->|Hr]; [lra|].
  rewrite Forall_forall in Hall. now apply Hall.
Qed.

Lemma fold_keep_step_maximal (t : Q) (cs kept : list Room) :
  StronglySorted conf_desc (kept ++ cs) ->
  forall c, c ∈ cs ->
    c ∈ fold_left (keep_step t) cs kept \/
    exists k, k ∈ fold_left (keep_step t) cs kept /\
              confidence c <= confidence k /\
              t < compute_iou (bbox_pixels c) (bbox_pixels k).
Proof.
  revert kept. induction cs as [|c0 cs IH]; intros kept Hs c Hc.
  { inversion Hc. }
  cbn [fold_left].
  assert (Hs' : StronglySorted conf_desc (keep_step t kept c0 ++ cs)).
  { unfold keep_step. destruct (overlaps_kept t c0 kept).
    - eapply StronglySorted_sublist; [|exact Hs].
      apply sublist_app; [reflexivity|]. apply sublist_cons. reflexivity.
    - now rewrite <- app_assoc. }
  apply elem_of_cons in Hc as [->|Hc]; [|now apply IH].
  unfold keep_step at 2 4. destruct (overlaps_kept t c0 kept) eqn:E.
  - right. apply overlaps_kept_true in E as (k & Hk & Hlt).
    exists k. split; [now apply fold_keep_step_prefix|]. split; [|exact Hlt].
    apply (StronglySorted_app_1_elem_of conf_desc kept (c0 :: cs) k c0 Hs Hk).
    left.
  - left. apply fold_keep_step_prefix, elem_of_app. right. left.
Qed.

(** X5.  Nothing is dropped without cause: every candidate is either in the
    output or overlaps, by more than the threshold, a room of the output
    that is at least as confident. *)
Theorem remove_overlapping_rooms_maximal (rooms : list Room) (t : Q)
    (r : Room) :
  r ∈ rooms ->
  r ∈ remove_overlapping_rooms rooms t \/
  exists k, k ∈ remove_overlapping_rooms rooms t /\
            confidence r <= confidence k /\
            t < compute_iou (bbox_pixels r) (bbox_pixels k).
Proof.
  intros Hr. rewrite remove_overlapping_rooms_fold.
  apply fold_keep_step_maximal.
  - apply sorted_desc_sorted.
  - now rewrite <- sorted_desc_perm.
Qed.

Lemma pairwise_within_perm (t : Q) (l l' : list Room) :
  l ≡ₚ l' -> pairwise_within t l -> pairwise_within t l'.
Proof.
  unfold pairwise_within.
  induction 1 as [|x l l' Hp IH|x y l|l l' l'' _ IH1 _ IH2]; intros H.
  - constructor.
  - inversion H as [|? ? Hx Hl]; subst. constructor; [|now apply IH].
    now rewrite <- Hp.
  - inversion H as [|? ? Hy Hl]; subst.
    inversion Hl as [|? ? Hx Hl']; subst.
    inversion Hy as [|? ? Hyx Hyl]; subst.
    constructor; [|constructor; assumption].
    constructor; [|exact Hx].
    now rewrite (compute_iou_sym (bbox_pixels x) (bbox_pixels y)).
  - auto.
Qed.

Lemma pairwise_within_compatible (t : Q) (l : list Room) :
  pairwise_within t l -> compatible t l.
Proof.
  unfold pairwise_within.
  induction 1 as [|x l Hx Hl IH]; intros i j ri rj Hij Hi Hj.
  - inversion Hi.
  - destruct j as [|j]; [lia|]. cbn in Hj. destruct i as [|i].
    + cbn in Hi. injection Hi as <-.
      rewrite Forall_forall in Hx.
      rewrite (compute_iou_sym (bbox_pixels rj) (bbox_pixels x)).
      apply Hx. eapply list_elem_of_lookup_2; eauto.
    + cbn in Hi. apply (IH i j ri rj); [lia|assumption..].
Qed.

Lemma pairwise_within_sorted_desc (rooms : list Room) (t : Q) :
  pairwise_within t rooms ->
  remove_overlapping_rooms rooms t = sorted_desc rooms.
Proof.
  intros H. rewrite remove_overlapping_rooms_fold.
  apply (fold_keep_step_compatible_id t (sorted_desc rooms) []).
  apply pairwise_within_compatible.
  apply (pairwise_within_perm t rooms); [apply sorted_desc_perm|exact H].
Qed.

(** X6.  When no two candidates overlap by more than the threshold, nothing
    is removed: the output is the sorted input, a permutation of the
    input. *)
Theorem remove_overlapping_rooms_keeps_all (rooms : list Room) (t : Q) :
  pairwise_within t rooms ->
  remove_overlapping_rooms rooms t = sorted_desc rooms /\
  remove_overlapping_rooms rooms t ≡ₚ rooms.
Proof.
  intros H. pose proof (pairwise_within_sorted_desc rooms t H) as E.
  split; [exact E|]. rewrite E. symmetry. apply sorted_desc_perm.
Qed.

Lemma pairwise_within_one (t : Q) (l : list Room) :
  1 <= t -> pairwise_within t l.
Proof.
  intros Ht. unfold pairwise_within.
  induction l as [|x l IH]; constructor; [|exact IH].
  apply Forall_forall. intros y _.
  pose proof (compute_iou_range (bbox_pixels x) (bbox_pixels y)). lra.
Qed.

(** X7.  A threshold of 1 or more switches suppression off: the output is
    the sorted input, whatever the boxes are. *)
Theorem remove_overlapping_rooms_threshold_one (rooms : list Room) (t : Q) :
  1 <= t ->
  remove_overlapping_rooms rooms t = sorted_desc rooms /\
  length (remove_overlapping_rooms rooms t) = length rooms.
Proof.
  intros Ht.
  pose proof (pairwise_within_sorted_desc rooms t
                (pairwise_within_one t rooms Ht)) as E.
  split; [exact E|]. rewrite E. symmetry.
  apply Permutation_length, sorted_desc_perm.
Qed.

Lemma fold_keep_step_negative (t : Q) (cs : list Room) (k : Room)
    (kept : list Room) :
  t < 0 -> fold_left (keep_step t) cs (k :: kept) = k :: kept.
Proof.
  intros Ht. induction cs as [|c cs IH]; [reflexivity|].
  cbn [fold_left]. unfold keep_step at 2. cbn [overlaps_kept].
  assert (E : Qltb t (compute_iou (bbox_pixels c) (bbox_pixels k)) = true).
  { apply Qltb_lt.
    pose proof (compute_iou_range (bbox_pixels c) (bbox_pixels k)). lra. }
  rewrite E. exact IH.
Qed.

(** X8.  With a negative threshold every IoU, even 0, exceeds the
    threshold: of a non-empty input only the first room of the sorted
    candidates is kept. *)
Theorem remove_overlapping_rooms_negative_threshold (rooms : list Room)
    (t : Q) :
  t < 0 -> rooms <> [] ->
  exists best,
    head (sorted_desc rooms) = Some best /\
    remove_overlapping_rooms rooms t = [best].
Proof.
  intros Ht Hne. rewrite remove_overlapping_rooms_fold.
  pose proof (sorted_desc_perm rooms) as Hp.
  destruct (sorted_desc rooms) as [|best s].
  { apply Permutation_nil_r in Hp. contradiction. }
  exists best. split; [reflexivity|].
  cbn [fold_left]. unfold keep_step at 2. cbn [overlaps_kept app].
  now apply fold_keep_step_negative.
Qed.

Lemma sorted_desc_perm_unique (l l' : list Room) :
  l ≡ₚ l' ->
  (forall x y, x ∈ l -> y ∈ l -> confidence x == confidence y -> x = y) ->
  sorted_desc l = sorted_desc l'.
Proof.
  intros Hp Hinj.
  apply (StronglySorted_unique_strong conf_desc).
  - intros a b Ha Hb Hab Hba.
    rewrite <- sorted_desc_perm in Ha. rewrite <- sorted_desc_perm, <- Hp in Hb.
    apply Hinj; [assumption..|]. unfold conf_desc in *. lra.
  - apply sorted_desc_sorted.
  - apply sorted_desc_sorted.
  - now rewrite <- !sorted_desc_perm.
Qed.

(** X9.  When candidates of equal confidence are equal, the output does not
    depend on the order of the input: two permutations of the same
    candidates give the same output. *)
Theorem remove_overlapping_rooms_order_independent (l l' : list Room)
    (t : Q) :
  l ≡ₚ l' ->
  (forall x y, x ∈ l -> y ∈ l -> confidence x == confidence y -> x = y) ->
  remove_overlapping_rooms l t = remove_overlapping_rooms l' t.
Proof.
  intros Hp Hinj. rewrite !remove_overlapping_rooms_fold.
  now rewrite (sorted_desc_perm_unique l l' Hp Hinj).
Qed.

(** ** More on the handler of [/detect] *)

Lemma uint_of_string_zero (s : string) :
  NilEmpty.uint_of_string ("0" +:+ s)
  = Decimal.D0 <$> NilEmpty.uint_of_string s.
Proof. reflexivity. Qed.

Lemma uint_of_string_zeros (k : nat) (s : string) (d : Decimal.uint) :
  NilEmpty.uint_of_string s = Some d ->
  exists d', NilEmpty.uint_of_string
               (String.concat "" (replicate k "0"%string) +:+ s) = Some d' /\
             Nat.of_uint d' = Nat.of_uint d.
Proof.
  intros Hs. induction k as [|k IH].
  - exists d. split; [exact Hs|reflexivity].
  - destruct IH as (d' & Hd' & Hv).
    assert (E : String.concat "" (replicate (S k) "0"%string) +:+ s
                = "0"%string
                  +:+ (String.concat "" (replicate k "0"%string) +:+ s)).
    { cbn [replicate String.concat]. destruct k; reflexivity. }
    rewrite E. exists (Decimal.D0 d'). split.
    + rewrite uint_of_string_zero, Hd'. reflexivity.
    + rewrite <- Hv. reflexivity.
Qed.

(** The digits of [fmt_03d n] read back as [n]. *)
Lemma int_of_digits_fmt_03d (n : nat) : int_of_digits (fmt_03d n) = Some n.
Proof.
  unfold int_of_digits, fmt_03d.
  set (s := NilZero.string_of_uint (Nat.to_uint n)).
  assert (Hs : exists d, NilEmpty.uint_of_string s = Some d /\ Nat.of_uint d = n).
  { unfold s, NilZero.string_of_uint.
    destruct (Nat.to_uint n) as [|u|u|u|u|u|u|u|u|u|u] eqn:E;
      try (eexists; split; [apply NilEmpty.usu|
                            rewrite <- E; apply DecimalNat.Unsigned.of_to]).
    exists (Decimal.D0 Decimal.Nil). split; [reflexivity|].
    rewrite <- (DecimalNat.Unsigned.of_to n), E. reflexivity. }
  destruct Hs as (d & Hd & Hn).
  destruct (uint_of_string_zeros (3 - String.length s) s d Hd) as (d' & -> & Hv).
  cbn. now rewrite Hv, Hn.
Qed.

Lemma fmt_03d_inj (n n' : nat) : fmt_03d n = fmt_03d n' -> n = n'.
Proof.
  intros E. pose proof (int_of_digits_fmt_03d n) as H.
  rewrite E, int_of_digits_fmt_03d in H. now injection H.
Qed.

Lemma compatible_pairwise (t : Q) (l : list Room) (i j : nat) (ri rj : Room) :
  compatible t l -> i <> j -> l !! i = Some ri -> l !! j = Some rj ->
  compute_iou (bbox_pixels ri) (bbox_pixels rj) <= t.
Proof.
  intros Hc Hne Hi Hj.
  destruct (Nat.lt_total i j) as [Hij|[Hij|Hij]]; [| contradiction |].
  - rewrite (compute_iou_sym (bbox_pixels ri) (bbox_pixels rj)).
    exact (Hc i j ri rj Hij Hi Hj).
  - exact (Hc j i rj ri Hij Hj Hi).
Qed.

Lemma reassign_ids_elem (l : list Room) (r : Room) :
  r ∈ reassign_ids l ->
  exists r0 new_id, r0 ∈ l /\ r = set_id new_id r0.
Proof.
  intros Hr. apply list_elem_of_lookup in Hr as [i Hi].
  apply reassign_ids_lookup in Hi as (r0 & Hr0 & ->).
  exists r0, ("room_" +:+ fmt_03d (i + 1)). split; [|reflexivity].
  eapply list_elem_of_lookup_2; eauto.
Qed.


Lemma imap_conf_sorted (f : nat -> Room -> Room) (l : list Room) :
  (forall i r, confidence (f i r) = confidence r) ->
  StronglySorted conf_desc l -> StronglySorted conf_desc (imap f l).
Proof.
  intros Hf Hs. revert f Hf.
  induction Hs as [|x l Hl IH Hx]; intros f Hf; [constructor|].
  rewrite imap_cons. constructor.
  - apply IH. intros i r. apply Hf.
  - apply Forall_forall. intros y Hy.
    apply elem_of_lookup_imap in Hy as (i & y0 & -> & Hy0).
    unfold conf_desc, compose. rewrite !Hf.
    rewrite Forall_forall in Hx. apply Hx.
    eapply list_elem_of_lookup_2; eauto.
Qed.

Section HandlerProperties.
Context {model image mask : Type}.
Context (imdecode : list byte -> option image).
Context (shape : image -> positive * positive).
Context (forward : model -> image -> list (Detection mask)).
Context (mask_polygon : mask -> list (list Z)).
Context (uuid4_hex : nat -> string).

Lemma collect_rooms_origin (threshold : Q) (w h : positive)
    (outputs : list (Detection mask)) (r : Room) :
  r ∈ collect_rooms mask mask_polygon uuid4_hex threshold w h outputs ->
  exists d n, d ∈ outputs /\ threshold <= score d /\
              r = make_room mask mask_polygon uuid4_hex w h n d.
Proof.
  unfold collect_rooms.
  set (P := fun r : Room =>
         exists d n, d ∈ outputs /\ threshold <= score d /\
                     r = make_room mask mask_polygon uuid4_hex w h n d).
  assert (H : forall ds acc, (forall d, d ∈ ds -> d ∈ outputs) ->
            Forall P acc ->
            Forall P (fold_left
                        (collect_step mask mask_polygon uuid4_hex threshold w h)
                        ds acc)).
  { induction ds as [|d ds IH]; intros acc Hds Hacc; cbn [fold_left].
    - exact Hacc.
    - apply IH; [intros d' Hd'; apply Hds; now right|].
      unfold collect_step. destruct (Qltb (score d) threshold) eqn:E;
        [exact Hacc|].
      apply Forall_app. split; [exact Hacc|].
      constructor; [|constructor].
      exists d, (length acc). split; [apply Hds; left|].
      split; [now apply Qltb_ge|reflexivity]. }
  intros Hr. specialize (H outputs [] (fun d Hd => Hd) (Forall_nil_2 P)).
  rewrite Forall_forall in H. now apply H.
Qed.

Lemma collect_rooms_length (threshold : Q) (w h : positive)
    (outputs : list (Detection mask)) :
  (length (collect_rooms mask mask_polygon uuid4_hex threshold w h outputs)
   <= length outputs)%nat.
Proof.
  unfold collect_rooms.
  assert (H : forall acc,
            (length (fold_left
                       (collect_step mask mask_polygon uuid4_hex threshold w h)
                       outputs acc)
             <= length acc + length outputs)%nat).
  { induction outputs as [|d ds IH]; intros acc; cbn [fold_left length].
    - lia.
    - etransitivity; [apply IH|]. unfold collect_step.
      destruct (Qltb (score d) threshold); [lia|].
      rewrite length_app. cbn. lia. }
  apply (H []).
Qed.

Lemma collect_rooms_none (threshold : Q) (w h : positive)
    (outputs : list (Detection mask)) :
  Forall (fun d => score d < threshold) outputs ->
  collect_rooms mask mask_polygon uuid4_hex threshold w h outputs = [].
Proof.
  unfold collect_rooms. generalize (@nil Room).
  induction 1 as [|d ds Hd _ IH]; [reflexivity|].
  cbn [fold_left]. unfold collect_step at 2.
  apply Qltb_lt in Hd. rewrite Hd. exact IH.
Qed.

(** The rooms of an answer, before their identifiers were renumbered. *)
Lemma detect_rooms_room (MODEL : option model) (contents : list byte)
    (threshold overlap_threshold : Q) (res : DetectionResult) (room : Room) :
  detect_rooms model image mask imdecode shape forward mask_polygon uuid4_hex
    MODEL contents threshold overlap_threshold = inr res ->
  room ∈ rooms res ->
  exists m img r0 new_id,
    MODEL = Some m /\ imdecode contents = Some img /\
    image_size res = ((shape img).2, (shape img).1) /\
    r0 ∈ collect_rooms mask mask_polygon uuid4_hex threshold
           (shape img).2 (shape img).1 (forward m img) /\
    room = set_id new_id r0.
Proof.
  intros Hres Hin.
  destruct (detect_rooms_ok _ _ _ _ _ _ _ _ _ _ Hres)
    as (m & img & Hm & Hdec & Hsize & _ & Hrooms).
  rewrite Hrooms in Hin.
  apply reassign_ids_elem in Hin as (r0 & new_id & Hr0 & ->).
  exists m, img, r0, new_id. repeat split; try assumption.
  eapply elem_of_submseteq; [exact Hr0|].
  apply remove_overlapping_rooms_submseteq.
Qed.

(** X10.  Every room of an answer comes from one detection of the network
    whose score is at least the threshold: it has that detection's pixel
    box, the polygon of its mask, its score rounded to three decimals and
    no name hint. *)
Theorem detect_rooms_origin (MODEL : option model) (contents : list byte)
    (threshold overlap_threshold : Q) (res : DetectionResult) (room : Room) :
  detect_rooms model image mask imdecode shape forward mask_polygon uuid4_hex
    MODEL contents threshold overlap_threshold = inr res ->
  room ∈ rooms res ->
  exists m img d,
    MODEL = Some m /\ imdecode contents = Some img /\
    d ∈ forward m img /\ threshold <= score d /\
    bbox_pixels room = {| x1 := box0 (box d); y1 := box1 (box d);
                          x2 := box2 (box d); y2 := box3 (box d) |} /\
    vertices room = mask_polygon (det_mask d) /\
    confidence room = pyround (score d) 3 /\
    name_hint room = None.
Proof.
  intros Hres Hin.
  destruct (detect_rooms_room _ _ _ _ _ _ Hres Hin)
    as (m & img & r0 & new_id & Hm & Hdec & _ & Hr0 & ->).
  apply collect_rooms_origin in Hr0 as (d & n & Hd & Hth & ->).
  exists m, img, d. repeat split; try assumption; try reflexivity.
Qed.

(** X11.  No returned room is less confident than the score threshold
    rounded to three decimals; with the default threshold 0.7 every
    returned confidence is at least 0.7. *)
Theorem detect_rooms_confidence_floor (MODEL : option model)
    (contents : list byte) (threshold overlap_threshold : Q)
    (res : DetectionResult) (room : Room) :
  detect_rooms model image mask imdecode shape forward mask_polygon uuid4_hex
    MODEL contents threshold overlap_threshold = inr res ->
  room ∈ rooms res ->
  pyround threshold 3 <= confidence room.
Proof.
  intros Hres Hin.
  destruct (detect_rooms_room _ _ _ _ _ _ Hres Hin)
    as (m & img & r0 & new_id & _ & _ & _ & Hr0 & ->).
  apply collect_rooms_origin in Hr0 as (d & n & _ & Hth & ->).
  cbn [set_id make_room confidence]. now apply pyround_mono.
Qed.

(** X12.  The answer is consistent: [total_rooms] is the number of rooms
    listed, it never exceeds the number of detections of the network, and
    [image_size] is the width and the height of the decoded image. *)
Theorem detect_rooms_count (MODEL : option model) (contents : list byte)
    (threshold overlap_threshold : Q) (res : DetectionResult) :
  detect_rooms model image mask imdecode shape forward mask_polygon uuid4_hex
    MODEL contents threshold overlap_threshold = inr res ->
  exists m img,
    MODEL = Some m /\ imdecode contents = Some img /\
    total_rooms res = length (rooms res) /\
    (total_rooms res <= length (forward m img))%nat /\
    image_size res = ((shape img).2, (shape img).1).
Proof.
  intros Hres.
  destruct (detect_rooms_ok _ _ _ _ _ _ _ _ _ _ Hres)
    as (m & img & Hm & Hdec & Hsize & Htot & Hrooms).
  exists m, img. repeat split; try assumption.
  rewrite Htot, Hrooms. unfold reassign_ids. rewrite length_imap.
  etransitivity; [|apply (collect_rooms_length threshold
                            (shape img).2 (shape img).1 (forward m img))].
  apply submseteq_length, remove_overlapping_rooms_submseteq.
Qed.

(** X13.  When the model is loaded, the upload is not empty and decodes,
    and no detection reaches the score threshold (in particular when the
    network detects nothing), the request succeeds with an empty list of
    rooms and [total_rooms] 0; it is not an error. *)
Theorem detect_rooms_nothing_found (m : model) (img : image)
    (contents : list byte) (threshold overlap_threshold : Q) :
  contents <> [] ->
  imdecode contents = Some img ->
  Forall (fun d => score d < threshold) (forward m img) ->
  detect_rooms model image mask imdecode shape forward mask_polygon uuid4_hex
    (Some m) contents threshold overlap_threshold
  = inr {| image_size := ((shape img).2, (shape img).1);
           total_rooms := 0; rooms := [] |}.
Proof.
  intros Hne Hdec Hall. unfold detect_rooms.
  destruct contents as [|b contents]; [contradiction|]. rewrite Hdec.
  destruct (shape img) as [h w]. cbn [fst snd].
  rewrite (collect_rooms_none threshold w h (forward m img) Hall).
  reflexivity.
Qed.

(** X14.  The rooms of an answer are listed in descending confidence, and
    no two of them overlap by more than the overlap threshold. *)
Theorem detect_rooms_ordered_separated (MODEL : option model)
    (contents : list byte) (threshold overlap_threshold : Q)
    (res : DetectionResult) :
  detect_rooms model image mask imdecode shape forward mask_polygon uuid4_hex
    MODEL contents threshold overlap_threshold = inr res ->
  StronglySorted conf_desc (rooms res) /\
  (forall (i j : nat) (ri rj : Room),
      i <> j -> rooms res !! i = Some ri -> rooms res !! j = Some rj ->
      compute_iou (bbox_pixels ri) (bbox_pixels rj) <= overlap_threshold).
Proof.
  intros Hres.
  destruct (detect_rooms_ok _ _ _ _ _ _ _ _ _ _ Hres)
    as (m & img & _ & _ & _ & _ & Hrooms).
  rewrite Hrooms. split.
  - apply imap_conf_sorted; [reflexivity|].
    apply remove_overlapping_rooms_sorted.
  - intros i j ri rj Hne Hi Hj.
    apply reassign_ids_lookup in Hi as (ri0 & Hi & ->).
    apply reassign_ids_lookup in Hj as (rj0 & Hj & ->).
    cbn [set_id bbox_pixels].
    eapply compatible_pairwise; eauto.
    apply remove_overlapping_rooms_compatible.
Qed.

(** X15.  The identifiers of an answer are pairwise different, and the
    digits of the identifier at place i read back as the number i+1. *)
Theorem detect_rooms_distinct_ids (MODEL : option model)
    (contents : list byte) (threshold overlap_threshold : Q)
    (res : DetectionResult) :
  detect_rooms model image mask imdecode shape forward mask_polygon uuid4_hex
    MODEL contents threshold overlap_threshold = inr res ->
  (forall (i j : nat) (ri rj : Room),
      i <> j -> rooms res !! i = Some ri -> rooms res !! j = Some rj ->
      id ri <> id rj) /\
  (forall (i : nat) (r : Room),
      rooms res !! i = Some r ->
      exists digits, id r = "room_" +:+ digits /\
                     int_of_digits digits = Some (i + 1)%nat).
Proof.
  intros Hres.
  destruct (detect_rooms_ok _ _ _ _ _ _ _ _ _ _ Hres)
    as (m & img & _ & _ & _ & _ & Hrooms).
  rewrite Hrooms. split.
  - intros i j ri rj Hne Hi Hj.
    apply reassign_ids_lookup in Hi as (ri0 & _ & ->).
    apply reassign_ids_lookup in Hj as (rj0 & _ & ->).
    cbn [set_id id]. intros E. injection E as E.
    apply fmt_03d_inj in E. lia.
  - intros i r Hi.
    apply reassign_ids_lookup in Hi as (r0 & _ & ->).
    exists (fmt_03d (i + 1)). split; [reflexivity|].
    apply int_of_digits_fmt_03d.
Qed.

(** X16.  A returned room whose pixel box is well formed (x1 <= x2 and
    y1 <= y2) has a normalised box [a; b; c; d] with a <= c and b <= d. *)
Theorem detect_rooms_normalized_well_formed (MODEL : option model)
    (contents : list byte) (threshold overlap_threshold : Q)
    (res : DetectionResult) (room : Room) :
  detect_rooms model image mask imdecode shape forward mask_polygon uuid4_hex
    MODEL contents threshold overlap_threshold = inr res ->
  room ∈ rooms res ->
  well_formed (bbox_pixels room) ->
  exists a b c d, bounding_box room = [a; b; c; d] /\ a <= c /\ b <= d.
Proof.
  intros Hres Hin [Hx Hy].
  destruct (detect_rooms_room _ _ _ _ _ _ Hres Hin)
    as (m & img & r0 & new_id & _ & _ & _ & Hr0 & ->).
  pose proof (collect_rooms_normalized mask_polygon uuid4_hex threshold
                (shape img).2 (shape img).1 (forward m img)) as Hall.
  rewrite Forall_forall in Hall. specialize (Hall r0 Hr0).
  cbn [set_id bounding_box bbox_pixels] in *. rewrite Hall.
  do 4 eexists. split; [reflexivity|].
  split; now apply normalize_le.
Qed.

(** X17.  A returned room whose pixel box lies inside the image (between 0
    and the width for x, between 0 and the height for y) has all four
    normalised coordinates between 0 and 1000. *)
Theorem detect_rooms_normalized_range (MODEL : option model)
    (contents : list byte) (threshold overlap_threshold : Q)
    (res : DetectionResult) (room : Room) :
  detect_rooms model image mask imdecode shape forward mask_polygon uuid4_hex
    MODEL contents threshold overlap_threshold = inr res ->
  room ∈ rooms res ->
  0 <= x1 (bbox_pixels room) <= inject_Z (Z.pos (image_size res).1) ->
  0 <= x2 (bbox_pixels room) <= inject_Z (Z.pos (image_size res).1) ->
  0 <= y1 (bbox_pixels room) <= inject_Z (Z.pos (image_size res).2) ->
  0 <= y2 (bbox_pixels room) <= inject_Z (Z.pos (image_size res).2) ->
  Forall (fun v => 0 <= v <= 1000) (bounding_box room).
Proof.
  intros Hres Hin Hx1 Hx2 Hy1 Hy2.
  destruct (detect_rooms_room _ _ _ _ _ _ Hres Hin)
    as (m & img & r0 & new_id & _ & _ & Hsize & Hr0 & ->).
  pose proof (collect_rooms_normalized mask_polygon uuid4_hex threshold
                (shape img).2 (shape img).1 (forward m img)) as Hall.
  rewrite Forall_forall in Hall. specialize (Hall r0 Hr0).
  rewrite Hsize in *. cbn [set_id bounding_box bbox_pixels fst snd] in *.
  rewrite Hall.
  repeat constructor; apply normalize_bounds; tauto.
Qed.

End HandlerProperties.

(** ** The provisional identifiers *)

Lemma same_but_id_refl (r : Room) : same_but_id r r.
Proof. repeat split. Qed.

Lemma insert_desc_same (r r' : Room) (l l' : list Room) :
  same_but_id r r' -> Forall2 same_but_id l l' ->
  Forall2 same_but_id (insert_desc r l) (insert_desc r' l').
Proof.
  intros Hr. induction 1 as [|y y' l l' Hy Hl IH]; cbn [insert_desc].
  - constructor; [exact Hr|constructor].
  - assert (E : Qltb (confidence r) (confidence y)
                = Qltb (confidence r') (confidence y')).
    { destruct Hr as (_ & _ & _ & -> & _).
      destruct Hy as (_ & _ & _ & -> & _). reflexivity. }
    rewrite E. destruct (Qltb (confidence r') (confidence y')).
    + constructor; assumption.
    + constructor; [exact Hr|]. constructor; assumption.
Qed.

Lemma sorted_desc_same (l l' : list Room) :
  Forall2 same_but_id l l' ->
  Forall2 same_but_id (sorted_desc l) (sorted_desc l').
Proof.
  induction 1 as [|r r' l l' Hr Hl IH]; [constructor|].
  cbn [sorted_desc foldr]. now apply insert_desc_same.
Qed.

Lemma overlaps_kept_same (t : Q) (r r' : Room) (kept kept' : list Room) :
  same_but_id r r' -> Forall2 same_but_id kept kept' ->
  overlaps_kept t r kept = overlaps_kept t r' kept'.
Proof.
  intros Hr. induction 1 as [|k k' kept kept' Hk Hkept IH]; [reflexivity|].
  cbn [overlaps_kept].
  destruct Hr as (_ & -> & _). destruct Hk as (_ & -> & _).
  now rewrite IH.
Qed.

Lemma fold_keep_step_same (t : Q) (cs cs' : list Room) :
  Forall2 same_but_id cs cs' ->
  forall kept kept', Forall2 same_but_id kept kept' ->
  Forall2 same_but_id (fold_left (keep_step t) cs kept)
                      (fold_left (keep_step t) cs' kept').
Proof.
  induction 1 as [|c c' cs cs' Hc Hcs IH]; intros kept kept' Hk;
    cbn [fold_left]; [exact Hk|].
  apply IH. unfold keep_step.
  rewrite (overlaps_kept_same t c c' kept kept' Hc Hk).
  destruct (overlaps_kept t c' kept'); [exact Hk|].
  apply Forall2_app; [exact Hk|]. constructor; [exact Hc|constructor].
Qed.

(** Suppression looks at the confidence and at the pixel box only. *)
Lemma remove_overlapping_rooms_same (l l' : list Room) (t : Q) :
  Forall2 same_but_id l l' ->
  Forall2 same_but_id (remove_overlapping_rooms l t)
                      (remove_overlapping_rooms l' t).
Proof.
  intros H. rewrite !remove_overlapping_rooms_fold.
  apply fold_keep_step_same; [now apply sorted_desc_same|constructor].
Qed.

Lemma imap_same (f : nat -> Room -> Room) (l l' : list Room) :
  (forall i r r', same_but_id r r' -> f i r = f i r') ->
  Forall2 same_but_id l l' -> imap f l = imap f l'.
Proof.
  intros Hf H. revert f Hf.
  induction H as [|r r' l l' Hr Hl IH]; intros f Hf; [reflexivity|].
  rewrite !imap_cons. f_equal; [now apply Hf|].
  apply IH. intros i x x' Hx. now apply Hf.
Qed.

Lemma reassign_ids_same (l l' : list Room) :
  Forall2 same_but_id l l' -> reassign_ids l = reassign_ids l'.
Proof.
  intros H. unfold reassign_ids. apply imap_same; [|exact H].
  intros i r r' (E1 & E2 & E3 & E4 & E5). unfold set_id.
  now rewrite E1, E2, E3, E4, E5.
Qed.

Section Identifiers.
Context {model image mask : Type}.
Context (imdecode : list byte -> option image).
Context (shape : image -> positive * positive).
Context (forward : model -> image -> list (Detection mask)).
Context (mask_polygon : mask -> list (list Z)).

Lemma collect_rooms_same (uuid uuid' : nat -> string) (threshold : Q)
    (w h : positive) (outputs : list (Detection mask)) :
  Forall2 same_but_id
    (collect_rooms mask mask_polygon uuid threshold w h outputs)
    (collect_rooms mask mask_polygon uuid' threshold w h outputs).
Proof.
  unfold collect_rooms.
  assert (H : forall acc acc', Forall2 same_but_id acc acc' ->
            Forall2 same_but_id
              (fold_left (collect_step mask mask_polygon uuid threshold w h)
                 outputs acc)
              (fold_left (collect_step mask mask_polygon uuid' threshold w h)
                 outputs acc')).
  { induction outputs as [|d ds IH]; intros acc acc' Hacc; cbn [fold_left].
    - exact Hacc.
    - apply IH. unfold collect_step.
      destruct (Qltb (score d) threshold); [exact Hacc|].
      apply Forall2_app; [exact Hacc|].
      constructor; [|constructor]. repeat split. }
  apply H. constructor.
Qed.

(** X18.  The answer of [/detect] does not depend on the random UUIDs
    drawn for the provisional identifiers: every one of them is overwritten
    when the rooms are renumbered. *)
Theorem detect_rooms_uuid_independent (uuid uuid' : nat -> string)
    (MODEL : option model) (contents : list byte)
    (threshold overlap_threshold : Q) :
  detect_rooms model image mask imdecode shape forward mask_polygon uuid
    MODEL contents threshold overlap_threshold
  = detect_rooms model image mask imdecode shape forward mask_polygon uuid'
      MODEL contents threshold overlap_threshold.
Proof.
  unfold detect_rooms.
  destruct MODEL as [m|]; [|reflexivity].
  destruct contents as [|b contents]; [reflexivity|].
  destruct (imdecode (b :: contents)) as [img|]; [|reflexivity].
  destruct (shape img) as [h w].
  rewrite (reassign_ids_same _ _
             (remove_overlapping_rooms_same _ _ overlap_threshold
                (collect_rooms_same uuid uuid' threshold w h (forward m img)))).
  reflexivity.
Qed.

End Identifiers.

(** ** Start-up, [/health] and [/detect] together *)

Section StartupProperties.
Context {model checkpoint image mask : Type}.
Context (cuda_is_available model_path_exists : bool).
Context (get_maskrcnn_model : nat -> option model).
Context (torch_load : Device -> option checkpoint).
Context (load_state_dict : model -> checkpoint -> Device -> option model).
Context (imdecode : list byte -> option image).
Context (shape : image -> positive * positive).
Context (forward : model -> image -> list (Detection mask)).
Context (mask_polygon : mask -> list (list Z)).
Context (uuid4_hex : nat -> string).

(** X19.  A missing weights file does not stop the service: the start-up
    hook returns normally and leaves [MODEL] unset, whatever the loading
    code would do; [/health] then reports the model as not loaded, and
    every call of [/detect] is answered with status 503. *)
Theorem load_model_without_weights :
  exists g,
    load_model model checkpoint cuda_is_available false get_maskrcnn_model
      torch_load load_state_dict (initial_globals model) = Started g /\
    MODEL g = None /\
    model_loaded (health model g) = false /\
    (forall contents threshold overlap_threshold,
       exists d,
         detect_rooms model image mask imdecode shape forward mask_polygon
           uuid4_hex (MODEL g) contents threshold overlap_threshold
         = inl {| status_code := 503; detail := d |}).
Proof.
  eexists. split; [reflexivity|]. split; [reflexivity|].
  split; [reflexivity|]. intros. eexists. reflexivity.
Qed.

(** X20.  After a start-up that returned normally, [/health] reports the
    model as loaded exactly when the weights file existed, and the device
    as "cuda" or "cpu" according to the availability of CUDA. *)
Theorem load_model_health (g : Globals model) :
  load_model model checkpoint cuda_is_available model_path_exists
    get_maskrcnn_model torch_load load_state_dict (initial_globals model)
  = Started g ->
  health model g =
    {| status := "healthy";
       model_loaded := model_path_exists;
       device := Some (if cuda_is_available then "cuda" else "cpu")%string |}.
Proof.
  unfold load_model. destruct model_path_exists; cbn [negb].
  - destruct (get_maskrcnn_model 2) as [m|]; [|discriminate].
    destruct (torch_load _) as [ckpt|]; [|discriminate].
    destruct (load_state_dict _ _ _) as [loaded|]; [|discriminate].
    intros [= <-]. unfold health. cbn.
    destruct cuda_is_available; reflexivity.
  - intros [= <-]. unfold health. cbn.
    destruct cuda_is_available; reflexivity.
Qed.

(** X21.  [/health] and [/detect] agree: the model is reported as not
    loaded exactly when every call of [/detect] is answered with status
    503. *)
Theorem health_detect_agree (g : Globals model) :
  model_loaded (health model g) = false <->
  (forall contents threshold overlap_threshold,
     exists d,
       detect_rooms model image mask imdecode shape forward mask_polygon
         uuid4_hex (MODEL g) contents threshold overlap_threshold
       = inl {| status_code := 503; detail := d |}).
Proof.
  unfold health. cbn [model_loaded]. split.
  - intros H contents threshold overlap_threshold.
    destruct (MODEL g); [discriminate|]. eexists. reflexivity.
  - intros H. destruct (MODEL g) as [m|]; [|reflexivity].
    destruct (H [] 0 0) as [d Hd]. discriminate Hd.
Qed.

End StartupProperties.

(** ** The further properties at concrete inputs *)

Lemma remove_overlapping_rooms_keeps_best_witness :
  sample_candidates <> [] /\
  exists best rest,
    remove_overlapping_rooms sample_candidates (3 # 10) = best :: rest /\
    head (sorted_desc sample_candidates) = Some best /\
    (forall r, r ∈ sample_candidates -> confidence r <= confidence best).
Proof.
  assert (H : sample_candidates <> []) by discriminate.
  split; [exact H|].
  exact (remove_overlapping_rooms_keeps_best sample_candidates (3 # 10) H).
Defined.

Lemma remove_overlapping_rooms_maximal_witness :
  candidate "third" box_b (5 # 10) ∈ sample_candidates /\
  (candidate "third" box_b (5 # 10)
     ∈ remove_overlapping_rooms sample_candidates (1 # 10) \/
   exists k, k ∈ remove_overlapping_rooms sample_candidates (1 # 10) /\
             confidence (candidate "third" box_b (5 # 10)) <= confidence k /\
             1 # 10 < compute_iou
                        (bbox_pixels (candidate "third" box_b (5 # 10)))
                        (bbox_pixels k)).
Proof.
  assert (H : candidate "third" box_b (5 # 10) ∈ sample_candidates).
  { apply (list_elem_of_lookup_2 _ 2%nat). reflexivity. }
  split; [exact H|].
  exact (remove_overlapping_rooms_maximal sample_candidates (1 # 10) _ H).
Defined.

Lemma remove_overlapping_rooms_keeps_all_witness :
  pairwise_within (3 # 10) sample_apart /\
  remove_overlapping_rooms sample_apart (3 # 10) = sorted_desc sample_apart /\
  remove_overlapping_rooms sample_apart (3 # 10) ≡ₚ sample_apart.
Proof.
  assert (H : pairwise_within (3 # 10) sample_apart).
  { unfold pairwise_within, sample_apart.
    constructor; [|constructor; [constructor|constructor]].
    constructor; [|constructor]. vm_compute. discriminate. }
  split; [exact H|].
  exact (remove_overlapping_rooms_keeps_all sample_apart (3 # 10) H).
Defined.

Lemma remove_overlapping_rooms_threshold_one_witness :
  1 <= 1 /\
  remove_overlapping_rooms sample_candidates 1 = sorted_desc sample_candidates /\
  length (remove_overlapping_rooms sample_candidates 1)
  = length sample_candidates.
Proof.
  assert (H : 1 <= 1) by discriminate.
  split; [exact H|].
  exact (remove_overlapping_rooms_threshold_one sample_candidates 1 H).
Defined.

Lemma remove_overlapping_rooms_negative_threshold_witness :
  - (1 # 10) < 0 /\ sample_candidates <> [] /\
  exists best,
    head (sorted_desc sample_candidates) = Some best /\
    remove_overlapping_rooms sample_candidates (- (1 # 10)) = [best].
Proof.
  assert (Ht : - (1 # 10) < 0) by reflexivity.
  assert (Hne : sample_candidates <> []) by discriminate.
  split; [exact Ht|]. split; [exact Hne|].
  exact (remove_overlapping_rooms_negative_threshold sample_candidates
           (- (1 # 10)) Ht Hne).
Defined.

Lemma remove_overlapping_rooms_order_independent_witness :
  sample_shuffled ≡ₚ sample_lookalike /\
  remove_overlapping_rooms sample_shuffled (3 # 10)
  = remove_overlapping_rooms sample_lookalike (3 # 10).
Proof.
  assert (Hp : sample_shuffled ≡ₚ sample_lookalike).
  { apply (Permutation_cons_append
             [candidate "second" box_c (9 # 10);
              candidate "third" box_b (5 # 10)]
             (candidate "first" box_a (4 # 10))). }
  split; [exact Hp|].
  apply (remove_overlapping_rooms_order_independent
           sample_shuffled sample_lookalike (3 # 10) Hp).
  intros x y Hx Hy E. unfold sample_shuffled in Hx, Hy.
  repeat (apply elem_of_cons in Hx as [->|Hx]);
    repeat (apply elem_of_cons in Hy as [->|Hy]);
    try reflexivity;
    try (exfalso; vm_compute in E; discriminate E);
    try (exfalso; inversion Hx); try (exfalso; inversion Hy).
Defined.

Lemma detect_rooms_origin_witness :
  sample_first ∈ rooms sample_result /\
  exists m img d,
    Some tt = Some m /\ sample_imdecode sample_png = Some img /\
    d ∈ sample_forward m img /\ 7 # 10 <= score d /\
    bbox_pixels sample_first
    = {| x1 := box0 (box d); y1 := box1 (box d);
         x2 := box2 (box d); y2 := box3 (box d) |} /\
    vertices sample_first = sample_polygon (det_mask d) /\
    confidence sample_first = pyround (score d) 3 /\
    name_hint sample_first = None.
Proof.
  assert (Hin : sample_first ∈ rooms sample_result).
  { apply (list_elem_of_lookup_2 _ 0%nat). vm_compute. reflexivity. }
  split; [exact Hin|].
  apply (detect_rooms_origin sample_imdecode sample_shape sample_forward
           sample_polygon sample_uuid (Some tt) sample_png (7 # 10) (3 # 10)
           sample_result sample_first).
  - vm_compute. reflexivity.
  - exact Hin.
Defined.

Lemma detect_rooms_confidence_floor_witness :
  sample_second ∈ rooms sample_result /\
  pyround (7 # 10) 3 <= confidence sample_second.
Proof.
  assert (Hin : sample_second ∈ rooms sample_result).
  { apply (list_elem_of_lookup_2 _ 1%nat). vm_compute. reflexivity. }
  split; [exact Hin|].
  apply (detect_rooms_confidence_floor sample_imdecode sample_shape
           sample_forward sample_polygon sample_uuid (Some tt) sample_png
           (7 # 10) (3 # 10) sample_result sample_second).
  - vm_compute. reflexivity.
  - exact Hin.
Defined.

Lemma detect_rooms_count_witness :
  exists m img,
    Some tt = Some m /\ sample_imdecode sample_png = Some img /\
    total_rooms sample_result = length (rooms sample_result) /\
    (total_rooms sample_result <= length (sample_forward m img))%nat /\
    image_size sample_result = ((sample_shape img).2, (sample_shape img).1).
Proof.
  apply (detect_rooms_count sample_imdecode sample_shape sample_forward
           sample_polygon sample_uuid (Some tt) sample_png (7 # 10) (3 # 10)
           sample_result).
  vm_compute. reflexivity.
Defined.

Lemma detect_rooms_nothing_found_witness :
  detect_rooms unit unit unit sample_imdecode sample_shape sample_forward
    sample_polygon sample_uuid (Some tt) sample_png (99 # 100) (3 # 10)
  = inr {| image_size := (640%positive, 480%positive);
           total_rooms := 0; rooms := [] |}.
Proof.
  apply (detect_rooms_nothing_found sample_imdecode sample_shape
           sample_forward sample_polygon sample_uuid tt tt sample_png
           (99 # 100) (3 # 10)).
  - discriminate.
  - reflexivity.
  - unfold sample_forward, sample_outputs.
    repeat (constructor; [reflexivity|]). constructor.
Defined.

Lemma detect_rooms_ordered_separated_witness :
  StronglySorted conf_desc (rooms sample_result) /\
  (forall (i j : nat) (ri rj : Room),
      i <> j -> rooms sample_result !! i = Some ri ->
      rooms sample_result !! j = Some rj ->
      compute_iou (bbox_pixels ri) (bbox_pixels rj) <= 3 # 10).
Proof.
  apply (detect_rooms_ordered_separated sample_imdecode sample_shape
           sample_forward sample_polygon sample_uuid (Some tt) sample_png
           (7 # 10) (3 # 10) sample_result).
  vm_compute. reflexivity.
Defined.

Lemma detect_rooms_distinct_ids_witness :
  (forall (i j : nat) (ri rj : Room),
      i <> j -> rooms sample_result !! i = Some ri ->
      rooms sample_result !! j = Some rj -> id ri <> id rj) /\
  (forall (i : nat) (r : Room),
      rooms sample_result !! i = Some r ->
      exists digits, id r = "room_" +:+ digits /\
                     int_of_digits digits = Some (i + 1)%nat).
Proof.
  apply (detect_rooms_distinct_ids sample_imdecode sample_shape
           sample_forward sample_polygon sample_uuid (Some tt) sample_png
           (7 # 10) (3 # 10) sample_result).
  vm_compute. reflexivity.
Defined.

Lemma detect_rooms_normalized_well_formed_witness :
  sample_first ∈ rooms sample_result /\
  well_formed (bbox_pixels sample_first) /\
  exists a b c d,
    bounding_box sample_first = [a; b; c; d] /\ a <= c /\ b <= d.
Proof.
  assert (Hin : sample_first ∈ rooms sample_result).
  { apply (list_elem_of_lookup_2 _ 0%nat). vm_compute. reflexivity. }
  assert (Hwf : well_formed (bbox_pixels sample_first)).
  { split; vm_compute; discriminate. }
  split; [exact Hin|]. split; [exact Hwf|].
  apply (detect_rooms_normalized_well_formed sample_imdecode sample_shape
           sample_forward sample_polygon sample_uuid (Some tt) sample_png
           (7 # 10) (3 # 10) sample_result sample_first).
  - vm_compute. reflexivity.
  - exact Hin.
  - exact Hwf.
Defined.

Lemma detect_rooms_normalized_range_witness :
  sample_first ∈ rooms sample_result /\
  Forall (fun v => 0 <= v <= 1000) (bounding_box sample_first).
Proof.
  assert (Hin : sample_first ∈ rooms sample_result).
  { apply (list_elem_of_lookup_2 _ 0%nat). vm_compute. reflexivity. }
  split; [exact Hin|].
  apply (detect_rooms_normalized_range sample_imdecode sample_shape
           sample_forward sample_polygon sample_uuid (Some tt) sample_png
           (7 # 10) (3 # 10) sample_result sample_first).
  - vm_compute. reflexivity.
  - exact Hin.
  - split; vm_compute; discriminate.
  - split; vm_compute; discriminate.
  - split; vm_compute; discriminate.
  - split; vm_compute; discriminate.
Defined.

Lemma load_model_health_witness :
  sample_startup
  = Started {| MODEL := None; DEVICE := Some cpu |} /\
  health unit {| MODEL := None; DEVICE := Some cpu |}
  = {| status := "healthy"; model_loaded := false;
       device := Some "cpu"%string |}.
Proof.
  split; [reflexivity|].
  apply (load_model_health (checkpoint := unit) false false
           (fun _ => Some tt) (fun _ => Some tt) (fun _ _ _ => Some tt)
           {| MODEL := None; DEVICE := Some cpu |}).
  reflexivity.
Defined.
